(** * Corrida dos Tronos: run tracking, geodesic metrics and run history

    A shallow embedding of the live run tracker of
    [components/ResultDisplay.tsx] and of the history loader of
    [components/RunHistory.tsx], followed by the place list of
    [ResultDisplay.tsx], the reply handling of
    [services/geminiService.ts] and the state of [App.tsx].

    Numbers.  The TypeScript code computes on IEEE doubles.  Here a
    distance, a latitude or a longitude is a real number ([R]): additions
    are exact and there is neither NaN nor an infinity.  Counters and
    clock readings are integers ([Z]).

    Dates.  A [RunHistoryEntry] carries [date] as the text produced by
    [new Date().toISOString()]; the only use the code makes of it is
    [new Date(date).getTime()].  The embedding keeps the epoch
    milliseconds that text denotes.

    Texts.  A JavaScript string is kept as the bytes of its UTF-8
    encoding; searching a text for a piece, or for an ASCII character,
    gives the same answer on either representation. *)

From Stdlib Require Import Reals Lra Lia ZArith List String Ascii Bool.
From Stdlib Require Import Decimal DecimalString DecimalPos DecimalZ.
From Stdlib Require Import Sorting.Sorted Sorting.Permutation.
Import ListNotations.

Open Scope R_scope.

(** ** types.ts *)

Record Coordinates : Type := mkCoordinates {
  latitude : R;
  longitude : R
}.

Record RunMetrics : Type := mkRunMetrics {
  distanceKm : R;
  elapsedTimeSeconds : Z;
  currentPace : string;
  path : list Coordinates;
  isTracking : bool
}.

Record RunHistoryEntry : Type := mkRunHistoryEntry {
  id : string;
  date : Z;
  placeName : string;
  metrics : RunMetrics
}.

Record Place : Type := mkPlace {
  name : string;
  lat : R;
  lng : R
}.

(** ** utils/geoUtils *)

Module GeoUtils.

(** Decimal text of an integer, as [Number.prototype.toString] prints it. *)
Definition toString (n : Z) : string :=
  NilZero.string_of_int (Z.to_int n).

(** [String(n).padStart(2, '0')] for an integer [n]. *)
Definition padStart2 (n : Z) : string :=
  let s := toString n in
  if (String.length s <? 2)%nat then String "0" s else s.

Definition toRad (deg : R) : R := deg * PI / 180.

(** Mean radius of the Earth, in kilometres. *)
Definition earthRadiusKm : R := 6371.

(** The haversine of the central angle between two points. *)
Definition haversine (lat1 lng1 lat2 lng2 : R) : R :=
  let dLat := toRad (lat2 - lat1) in
  let dLng := toRad (lng2 - lng1) in
  Rsqr (sin (dLat / 2))
  + cos (toRad lat1) * cos (toRad lat2) * Rsqr (sin (dLng / 2)).

(** Modelled from the spec: [calculateDistance] lives in
    [utils/geoUtils], which is not among the sources.  The spec gives it
    as the great-circle distance by the haversine formula on a sphere of
    radius 6371 km, from coordinates in decimal degrees, in kilometres. *)
Definition calculateDistance (lat1 lng1 lat2 lng2 : R) : R :=
  earthRadiusKm * (2 * asin (sqrt (haversine lat1 lng1 lat2 lng2))).

(** The sentinel shown while no pace is defined. *)
Definition noPace : string := "--:--".

(** Whole minutes and remaining whole seconds of a pace in seconds per
    kilometre, both truncated. *)
Definition paceMinutes (paceSeconds : R) : Z := Int_part (paceSeconds / 60).

Definition paceSeconds_rem (paceSeconds : R) : Z :=
  Int_part (paceSeconds - 60 * IZR (paceMinutes paceSeconds)).

(** Modelled from the spec: [calculatePace] lives in [utils/geoUtils],
    which is not among the sources.  The spec: the sentinel when
    [distanceKm <= 0]; otherwise seconds per kilometre
    ([elapsedSeconds / distanceKm]) converted to whole minutes and
    remaining whole seconds, truncated, printed as [mm:ss] with the
    seconds on two digits; [calculatePace(10, 3600)] is ["06:00"], so the
    minutes take two digits as well. *)
Definition calculatePace (distanceKm : R) (elapsedSeconds : Z) : string :=
  if Rle_dec distanceKm 0 then noPace
  else
    let pace := IZR elapsedSeconds / distanceKm in
    (padStart2 (paceMinutes pace) ++ ":" ++ padStart2 (paceSeconds_rem pace))%string.

(** Modelled from the spec: [formatTime] lives in [utils/geoUtils], which
    is not among the sources.  The spec: [mm:ss] with both components
    zero-padded and no hour component. *)
Definition formatTime (totalSeconds : Z) : string :=
  (padStart2 (totalSeconds / 60) ++ ":" ++ padStart2 (totalSeconds mod 60))%string.

End GeoUtils.

(** ** The browser around the components *)

(** What a JavaScript call can do: return, or throw. *)
Inductive exn : Type :=
  | SyntaxError          (* JSON.parse on text that is not JSON *)
  | QuotaExceededError.  (* localStorage.setItem refused *)

Inductive completion (A : Type) : Type :=
  | Normal (a : A)
  | Throw (e : exn).

Arguments Normal {A} a.
Arguments Throw {A} e.

Definition bind {A B : Type} (c : completion A) (k : A -> completion B)
  : completion B :=
  match c with
  | Normal a => k a
  | Throw e => Throw e
  end.

(** [try { body } catch (error) { handler }] *)
Definition try_catch {A : Type} (body : completion A)
  (handler : exn -> completion A) : completion A :=
  match body with
  | Normal a => Normal a
  | Throw e => handler e
  end.

Notation "x <- c ;; k" := (bind c (fun x => k))
  (at level 61, c at next level, right associativity).

(** The text held under the key ['runHistory'], by what [JSON.parse]
    makes of it: the empty text, text it rejects, or the serialization
    of an array of entries.  (Text that parses to some other JSON value
    is left out.) *)
Inductive StoredText : Type :=
  | EmptyText
  | Corrupt (raw : string)
  | Serialized (h : list RunHistoryEntry).

Record LocalStorage : Type := mkLocalStorage {
  runHistory : option StoredText;   (* None: the key is missing *)
  quotaExceeded : bool              (* the store refuses writes *)
}.

Definition getItem (ls : LocalStorage) : option StoredText := runHistory ls.

(** A text is truthy unless it is empty. *)
Definition truthy (t : StoredText) : bool :=
  match t with
  | EmptyText => false
  | _ => true
  end.

Definition JSON_parse (t : StoredText) : completion (list RunHistoryEntry) :=
  match t with
  | Serialized h => Normal h
  | _ => Throw SyntaxError
  end.

Definition JSON_stringify (h : list RunHistoryEntry) : StoredText :=
  Serialized h.

Definition setItem (ls : LocalStorage) (t : StoredText)
  : completion LocalStorage :=
  if quotaExceeded ls then Throw QuotaExceededError
  else Normal (mkLocalStorage (Some t) (quotaExceeded ls)).

(** The entries the store holds, in stored order. *)
Definition persisted (ls : LocalStorage) : list RunHistoryEntry :=
  match runHistory ls with
  | Some (Serialized h) => h
  | _ => []
  end.

(** ** components/ResultDisplay.tsx *)

Module ResultDisplay.

(** The state of the component: its [useState] cells, its refs, the
    props it reads, and the browser services it calls. *)
Record State : Type := mkState {
  selectedPlace : option Place;
  stateIsTracking : bool;                  (* useState: isTracking *)
  runMetrics : RunMetrics;                 (* useState: runMetrics *)
  watchIdRef : bool;                       (* the ref holds a watch id *)
  timerIntervalRef : bool;                 (* the ref holds an interval *)
  lastLocationRef : option Coordinates;
  userCoordinates : option Coordinates;    (* prop *)
  geolocation : bool;                      (* navigator.geolocation exists *)
  localStorage : LocalStorage
}.

Definition initialMetrics : RunMetrics :=
  mkRunMetrics 0 0 "--:--" [] false.

(** The component as first rendered. *)
Definition mount (geo : bool) (uc : option Coordinates) (ls : LocalStorage)
  : State :=
  mkState None false initialMetrics false false None uc geo ls.

Definition setRunMetrics (f : RunMetrics -> RunMetrics) (s : State) : State :=
  mkState (selectedPlace s) (stateIsTracking s) (f (runMetrics s))
    (watchIdRef s) (timerIntervalRef s) (lastLocationRef s)
    (userCoordinates s) (geolocation s) (localStorage s).

Definition setIsTracking (b : bool) (s : State) : State :=
  mkState (selectedPlace s) b (runMetrics s)
    (watchIdRef s) (timerIntervalRef s) (lastLocationRef s)
    (userCoordinates s) (geolocation s) (localStorage s).

Definition setSelectedPlace (p : option Place) (s : State) : State :=
  mkState p (stateIsTracking s) (runMetrics s)
    (watchIdRef s) (timerIntervalRef s) (lastLocationRef s)
    (userCoordinates s) (geolocation s) (localStorage s).

Definition setLastLocation (c : option Coordinates) (s : State) : State :=
  mkState (selectedPlace s) (stateIsTracking s) (runMetrics s)
    (watchIdRef s) (timerIntervalRef s) c
    (userCoordinates s) (geolocation s) (localStorage s).

Definition setSubscriptions (watch timer : bool) (s : State) : State :=
  mkState (selectedPlace s) (stateIsTracking s) (runMetrics s)
    watch timer (lastLocationRef s)
    (userCoordinates s) (geolocation s) (localStorage s).

(** [onUpdateCoordinates]: the parent stores the fix and passes it back
    as the [userCoordinates] prop. *)
Definition onUpdateCoordinates (c : option Coordinates) (s : State) : State :=
  mkState (selectedPlace s) (stateIsTracking s) (runMetrics s)
    (watchIdRef s) (timerIntervalRef s) (lastLocationRef s)
    c (geolocation s) (localStorage s).

Definition setLocalStorage (ls : LocalStorage) (s : State) : State :=
  mkState (selectedPlace s) (stateIsTracking s) (runMetrics s)
    (watchIdRef s) (timerIntervalRef s) (lastLocationRef s)
    (userCoordinates s) (geolocation s) ls.

(** [selectedPlace?.name || "Corrida Livre"] *)
Definition placeNameOf (p : option Place) : string :=
  match p with
  | Some pl => if String.eqb (name pl) "" then "Corrida Livre" else name pl
  | None => "Corrida Livre"
  end.

(** The body of the [try] block of [saveRunToHistory].  [now] is what
    [Date.now()] returns and [today] the instant of [new Date()]. *)
Definition saveRunToHistory_body (now today : Z) (s : State)
  : completion State :=
  let historyEntry :=
    mkRunHistoryEntry (GeoUtils.toString now) today
      (placeNameOf (selectedPlace s)) (runMetrics s) in
  let existingHistoryStr := getItem (localStorage s) in
  history <- match existingHistoryStr with
             | Some t => if truthy t then JSON_parse t else Normal []
             | None => Normal []
             end ;;
  let newHistory := history ++ [historyEntry] in
  ls <- setItem (localStorage s) (JSON_stringify newHistory) ;;
  Normal (setLocalStorage ls s).

Definition saveRunToHistory (now today : Z) (s : State) : completion State :=
  if andb (if Req_dec_T (distanceKm (runMetrics s)) 0 then true else false)
          (elapsedTimeSeconds (runMetrics s) =? 0)%Z
  then Normal s
  else try_catch (saveRunToHistory_body now today s) (fun _ => Normal s).

Definition stopTracking (now today : Z) (s : State) : completion State :=
  let s1 := setSubscriptions false false s in
  s2 <- (if stateIsTracking s then saveRunToHistory now today s1
         else Normal s1) ;;
  Normal (setIsTracking false s2).

(** The callback handed to [setInterval]. *)
Definition onTimer (s : State) : State :=
  setRunMetrics (fun prev =>
    let newTime := (elapsedTimeSeconds prev + 1)%Z in
    mkRunMetrics (distanceKm prev) newTime
      (GeoUtils.calculatePace (distanceKm prev) newTime)
      (path prev) (isTracking prev)) s.

(** The noise threshold of the position callback, in kilometres. *)
Definition noiseThresholdKm : R := 0.005.

Definition distanceBetween (a b : Coordinates) : R :=
  GeoUtils.calculateDistance (latitude a) (longitude a)
    (latitude b) (longitude b).

(** The success callback handed to [watchPosition]. *)
Definition onPosition (newCoords : Coordinates) (s : State) : State :=
  let s := onUpdateCoordinates (Some newCoords) s in
  match lastLocationRef s with
  | Some last =>
      let dist := distanceBetween last newCoords in
      if Rgt_dec dist noiseThresholdKm then
        setLastLocation (Some newCoords)
          (setRunMetrics (fun prev =>
             let newDist := distanceKm prev + dist in
             mkRunMetrics newDist (elapsedTimeSeconds prev)
               (currentPace prev) (path prev ++ [newCoords])
               (isTracking prev)) s)
      else s
  | None =>
      setRunMetrics (fun prev =>
        mkRunMetrics (distanceKm prev) (elapsedTimeSeconds prev)
          (currentPace prev) [newCoords] (isTracking prev))
        (setLastLocation (Some newCoords) s)
  end.

(** The error callback handed to [watchPosition]: a console warning. *)
Definition onPositionError (s : State) : State := s.

Definition startTracking (s : State) : State :=
  if negb (geolocation s) then s
  else
    let s := setIsTracking true s in
    let s := setRunMetrics (fun _ =>
               mkRunMetrics 0 0 "--:--"
                 (match userCoordinates s with
                  | Some c => [c]
                  | None => []
                  end) true) s in
    let s := setLastLocation (userCoordinates s) s in
    setSubscriptions true true s.

(** The clean-up registered by [useEffect(..., [])] calls the
    [stopTracking] of the first render.  That closure reads [isTracking]
    as it was then, [false], so it releases the subscriptions through the
    refs and saves nothing. *)
Definition stopTracking_firstRender (s : State) : State :=
  setIsTracking false (setSubscriptions false false s).

(** What can happen to a mounted component. *)
Inductive Event : Type :=
  | ClickStart                        (* rendered only while not tracking *)
  | ClickStop (now today : Z)         (* with the clock at that moment *)
  | TimerTick                         (* the interval fires *)
  | PositionFix (c : Coordinates)     (* the watch delivers a fix *)
  | PositionError                     (* the watch reports an error *)
  | SelectPlace (p : option Place)
  | CoordinatesProp (c : option Coordinates)
  | Unmount.                          (* the clean-up of the first effect *)

Definition dispatch (e : Event) (s : State) : completion State :=
  match e with
  | ClickStart => Normal (if stateIsTracking s then s else startTracking s)
  | ClickStop now today => stopTracking now today s
  | TimerTick => Normal (if timerIntervalRef s then onTimer s else s)
  | PositionFix c => Normal (if watchIdRef s then onPosition c s else s)
  | PositionError => Normal (if watchIdRef s then onPositionError s else s)
  | SelectPlace p => Normal (setSelectedPlace p s)
  | CoordinatesProp c => Normal (onUpdateCoordinates c s)
  | Unmount => Normal (stopTracking_firstRender s)
  end.

Fixpoint run (es : list Event) (s : State) : completion State :=
  match es with
  | [] => Normal s
  | e :: es' => s' <- dispatch e s ;; run es' s'
  end.

(** The states a mounted component can be in. *)
Inductive reachable : State -> Prop :=
  | reachable_mount geo uc ls : reachable (mount geo uc ls)
  | reachable_step s e s' :
      reachable s -> dispatch e s = Normal s' -> reachable s'.

(** No two neighbours of a path are within the noise threshold. *)
Fixpoint spaced (p : list Coordinates) : Prop :=
  match p with
  | a :: (b :: _) as rest =>
      ~ distanceBetween a b < noiseThresholdKm /\ spaced rest
  | _ => True
  end.

(** [p] is [q] with points appended. *)
Definition extends (q p : list Coordinates) : Prop :=
  exists added, q = p ++ added.

(** The last point of a path, if any. *)
Fixpoint lastPoint (p : list Coordinates) : option Coordinates :=
  match p with
  | [] => None
  | [a] => Some a
  | _ :: rest => lastPoint rest
  end.

(** The entry [saveRunToHistory] builds. *)
Definition entryOf (now today : Z) (s : State) : RunHistoryEntry :=
  mkRunHistoryEntry (GeoUtils.toString now) today
    (placeNameOf (selectedPlace s)) (runMetrics s).

(** The two storage errors: the stored text does not parse, or the store
    refuses the write. *)
Definition unparseable (ls : LocalStorage) : bool :=
  match runHistory ls with
  | Some (Corrupt _) => true
  | _ => false
  end.

Definition storageFails (ls : LocalStorage) : bool :=
  unparseable ls || quotaExceeded ls.

(** A session in which neither distance nor time advanced. *)
Definition emptySession (m : RunMetrics) : Prop :=
  distanceKm m = 0 /\ elapsedTimeSeconds m = 0%Z.

(** What every reachable state satisfies: the last-known position is the
    end of the path, the path is spaced, and while the component says it
    is tracking both subscriptions are live and the metrics say so too. *)
Definition consistent (s : State) : Prop :=
  lastLocationRef s = lastPoint (path (runMetrics s))
  /\ spaced (path (runMetrics s))
  /\ (stateIsTracking s = true ->
      timerIntervalRef s = true /\ watchIdRef s = true
      /\ isTracking (runMetrics s) = true).

End ResultDisplay.

(** ** components/RunHistory.tsx *)

Module RunHistory.

(** The comparator given to [sort]:
    [new Date(b.date).getTime() - new Date(a.date).getTime()]. *)
Definition compareFn (a b : RunHistoryEntry) : Z := (date b - date a)%Z.

(** [Array.prototype.sort] is stable: an element goes before the first
    one that the comparator does not put ahead of it. *)
Fixpoint insert (x : RunHistoryEntry) (l : list RunHistoryEntry)
  : list RunHistoryEntry :=
  match l with
  | [] => [x]
  | y :: l' => if (compareFn x y <=? 0)%Z then x :: y :: l'
               else y :: insert x l'
  end.

Fixpoint sort (l : list RunHistoryEntry) : list RunHistoryEntry :=
  match l with
  | [] => []
  | x :: l' => insert x (sort l')
  end.

(** The body of the [try] block of [loadHistory], from the initial
    [history] state, the empty array. *)
Definition loadHistory_body (ls : LocalStorage)
  : completion (list RunHistoryEntry) :=
  match getItem ls with
  | Some stored =>
      if truthy stored then
        parsed <- JSON_parse stored ;;
        Normal (sort parsed)
      else Normal []
  | None => Normal []
  end.

(** The [history] state once [loadHistory] has run. *)
Definition loadHistory (ls : LocalStorage) : list RunHistoryEntry :=
  match try_catch (loadHistory_body ls) (fun _ => Normal []) with
  | Normal h => h
  | Throw _ => []
  end.

(** Newest first. *)
Definition newestFirst (l : list RunHistoryEntry) : Prop :=
  StronglySorted (fun a b => (date b <= date a)%Z) l.

End RunHistory.

(** ** The rest of a place, and the place list of ResultDisplay.tsx *)

(** [LeaderboardEntry] of types.ts. *)
Module LeaderboardEntry.

Record t : Type := mk {
  rank : Z;
  name : string;
  visits : Z;
  avatarColor : string
}.

End LeaderboardEntry.

(** A [Place] of types.ts with the fields the tracker does not read. *)
Record PlaceDetails : Type := mkPlaceDetails {
  place : Place;
  summary : string;
  difficulty : string;
  leaderboard : option (list LeaderboardEntry.t)   (* None: undefined *)
}.

(** [String.prototype.includes] *)
Fixpoint includes (s sub : string) : bool :=
  if String.prefix sub s then true
  else match s with
       | EmptyString => false
       | String _ s' => includes s' sub
       end.

(** [Array.prototype.sort] with a comparator, for any element type.
    [nonpositive a b] says that the comparator returns zero or less on
    [(a, b)]: it does not put [b] ahead of [a].  The sort is stable. *)
Module JSArray.

Section Sort.

Context {A : Type}.
Variable nonpositive : A -> A -> bool.

Fixpoint insert (x : A) (l : list A) : list A :=
  match l with
  | [] => [x]
  | y :: l' => if nonpositive x y then x :: y :: l' else y :: insert x l'
  end.

Fixpoint sort (l : list A) : list A :=
  match l with
  | [] => []
  | x :: l' => insert x (sort l')
  end.

(** The elements the comparator ties with [z]. *)
Definition tied (z y : A) : bool := nonpositive z y && nonpositive y z.

End Sort.

End JSArray.

Module PlaceList.

Inductive SortOption : Type :=
  | SortDefault
  | SortDifficulty
  | SortDistance
  | SortPopularity.

Section WithLowerCase.

(** [String.prototype.toLowerCase], a service of the JavaScript runtime. *)
Variable toLowerCase : string -> string.

Definition getDifficultyScore (difficulty : string) : Z :=
  let d := toLowerCase difficulty in
  if includes d "iniciante" then 1%Z
  else if includes d "intermediário" || includes d "intermediario" then 2%Z
  else if includes d "avançado" || includes d "avancado" then 3%Z
  else 2%Z.

(** [place.leaderboard?.[0]?.visits || 0] *)
Definition getPopularityScore (p : PlaceDetails) : Z :=
  match leaderboard p with
  | Some (first :: _) =>
      if (LeaderboardEntry.visits first =? 0)%Z then 0%Z
      else LeaderboardEntry.visits first
  | _ => 0%Z
  end.

Definition distanceFrom (user : Coordinates) (p : PlaceDetails) : R :=
  GeoUtils.calculateDistance (latitude user) (longitude user)
    (lat (place p)) (lng (place p)).

(** The three comparators given to [sort]. *)
Definition byDifficulty (a b : PlaceDetails) : Z :=
  (getDifficultyScore (difficulty a) - getDifficultyScore (difficulty b))%Z.

Definition byPopularity (a b : PlaceDetails) : Z :=
  (getPopularityScore b - getPopularityScore a)%Z.

Definition byDistance (user : Coordinates) (a b : PlaceDetails) : R :=
  let distA := distanceFrom user a in
  let distB := distanceFrom user b in
  distA - distB.

(** The [sortedPlaces] memo. *)
Definition sortedPlaces (places : option (list PlaceDetails))
  (sortBy : SortOption) (userCoordinates : option Coordinates)
  : list PlaceDetails :=
  match places with
  | None => []
  | Some ps =>
      let placesCopy := ps in
      match sortBy with
      | SortDifficulty =>
          JSArray.sort (fun a b => (byDifficulty a b <=? 0)%Z) placesCopy
      | SortPopularity =>
          JSArray.sort (fun a b => (byPopularity a b <=? 0)%Z) placesCopy
      | SortDistance =>
          match userCoordinates with
          | None => placesCopy
          | Some user =>
              JSArray.sort
                (fun a b => if Rle_dec (byDistance user a b) 0 then true
                            else false)
                placesCopy
          end
      | SortDefault => placesCopy
      end
  end.

End WithLowerCase.

End PlaceList.

(** ** Measures of a session *)

Module Session.
Import ResultDisplay.

(** The length of a path: the sum of its legs. *)
Fixpoint pathLength (p : list Coordinates) : R :=
  match p with
  | a :: (b :: _) as rest => distanceBetween a b + pathLength rest
  | _ => 0
  end.

Definition isTick (e : Event) : bool :=
  match e with
  | TimerTick => true
  | _ => false
  end.

(** The timer ticks of a run of events. *)
Definition ticks (es : list Event) : nat := List.length (filter isTick es).

(** The events that end tracking. *)
Definition endsSession (e : Event) : bool :=
  match e with
  | ClickStop _ _ | Unmount => true
  | _ => false
  end.

(** The events that come from the two subscriptions. *)
Definition fromSubscription (e : Event) : bool :=
  match e with
  | TimerTick | PositionFix _ | PositionError => true
  | _ => false
  end.

Definition isStop (e : Event) : bool :=
  match e with
  | ClickStop _ _ => true
  | _ => false
  end.

(** Both subscriptions are live exactly while the component says it is
    tracking, which it only does where geolocation exists. *)
Definition in_step (s : State) : Prop :=
  watchIdRef s = stateIsTracking s
  /\ timerIntervalRef s = stateIsTracking s
  /\ (stateIsTracking s = true -> geolocation s = true).

(** The distance shown is the length of the path recorded. *)
Definition measured (s : State) : Prop :=
  distanceKm (runMetrics s) = pathLength (path (runMetrics s)).

End Session.

(** ** services/geminiService.ts *)

Module GeminiService.

Definition names : list string :=
  ["João 'O Flash'"; "Maria Maratona"; "Rei Arthur"; "Ana Velocity";
   "Pedro Pace"; "Rainha da Pista"; "Lorde Corredor"]%string.

Definition colors : list string :=
  ["bg-blue-500"; "bg-purple-500"; "bg-emerald-500"; "bg-amber-500";
   "bg-red-500"]%string.

(** [Math.floor] *)
Definition floor (x : R) : Z := Int_part x.

(** [list[i]]; an index out of range, which gives [undefined], is
    rendered as the empty text. *)
Definition at_index (l : list string) (i : Z) : string :=
  if (i <? 0)%Z then ""%string else nth (Z.to_nat i) l ""%string.

(** [generateMockLeaderboard].  [shuffled] is what
    [names.sort(() => 0.5 - Math.random())] leaves, and the five reals
    are the values of the later calls of [Math.random()], in order. *)
Definition generateMockLeaderboard (shuffled : list string)
  (rVisits rColor1 rDrop rColor2 rColor3 : R) : list LeaderboardEntry.t :=
  let currentVisits := (floor (rVisits * 50) + 30)%Z in
  [ LeaderboardEntry.mk 1 (at_index shuffled 0) currentVisits
      (at_index colors (floor (rColor1 * IZR (Z.of_nat (List.length colors)))));
    LeaderboardEntry.mk 2 (at_index shuffled 1)
      (currentVisits - floor (rDrop * 10) - 1)%Z
      (at_index colors (floor (rColor2 * IZR (Z.of_nat (List.length colors)))));
    LeaderboardEntry.mk 3 (at_index shuffled 2)
      (floor (IZR currentVisits / 2))
      (at_index colors (floor (rColor3 * IZR (Z.of_nat (List.length colors))))) ].

(** What [Math.random()] returns. *)
Definition unitDraw (r : R) : Prop := 0 <= r < 1.

(** *** [text.match(/\[[\s\S]*\]/)] *)

Definition openBracket : ascii := "["%char.
Definition closeBracket : ascii := "]"%char.

(** What follows the first ["["]. *)
Fixpoint afterFirstOpen (s : string) : option string :=
  match s with
  | EmptyString => None
  | String c s' =>
      if Ascii.eqb c openBracket then Some s' else afterFirstOpen s'
  end.

(** The longest prefix that ends with ["]"]. *)
Fixpoint throughLastClose (s : string) : option string :=
  match s with
  | EmptyString => None
  | String c s' =>
      match throughLastClose s' with
      | Some m => Some (String c m)
      | None => if Ascii.eqb c closeBracket then Some (String c EmptyString)
                else None
      end
  end.

(** [jsonMatch[0]], or [None] when the match is [null]. *)
Definition jsonMatch (text : string) : option string :=
  match afterFirstOpen text with
  | Some rest =>
      match throughLastClose rest with
      | Some m => Some (String openBracket m)
      | None => None
      end
  | None => None
  end.

(** *** [s.replace(/pat/g, '')] for a literal, non-empty [pat] *)

(** [skip] counts the characters of the current match still to drop. *)
Fixpoint removeAll_from (pat : string) (skip : nat) (s : string) : string :=
  match s with
  | EmptyString => EmptyString
  | String c s' =>
      match skip with
      | S k => removeAll_from pat k s'
      | O =>
          if String.prefix pat s
          then removeAll_from pat (String.length pat - 1) s'
          else String c (removeAll_from pat 0 s')
      end
  end.

Definition removeAll (pat s : string) : string := removeAll_from pat 0 s.

Definition fence : string := "```".

(** [jsonMatch[0].replace(/```json/g, '').replace(/```/g, '')] *)
Definition cleanJson (m : string) : string :=
  removeAll fence (removeAll "```json" m).

End GeminiService.

(** ** App.tsx *)

Module App.

Inductive LoadingState : Type := IDLE | LOADING | SUCCESS | ERROR.

Section WithResponse.

(** [GeminiResponseData]: the component stores it and hands it on,
    and never looks inside. *)
Variable GeminiResponseData : Type.

(** [String.prototype.trim], a service of the JavaScript runtime. *)
Variable trim : string -> string.

Record State : Type := mkState {
  query : string;
  status : LoadingState;
  data : option GeminiResponseData;
  coordinates : option Coordinates;
  errorMsg : option string
}.

Definition initial : State := mkState "" IDLE None None None.

(** A call of [fetchRunningRoutes]. *)
Record Request : Type := mkRequest {
  searchLocation : string;
  location : option Coordinates
}.

Definition isEmpty (s : string) : bool := String.eqb s "".

(** [handleSearch], up to the [await]: the new state, and the request
    it issues if any. *)
Definition handleSearch (s : State) : State * option Request :=
  if isEmpty (trim (query s))
     && match coordinates s with None => true | Some _ => false end
  then (s, None)
  else
    let searchLocation :=
      if isEmpty (query s) then "minha localização atual"%string
      else query s in
    (mkState (query s) LOADING None (coordinates s) None,
     Some (mkRequest searchLocation (coordinates s))).

(** After the [await] of [handleSearch], and the [then] of
    [handleGeolocation]. *)
Definition onRoutes (result : GeminiResponseData) (s : State) : State :=
  mkState (query s) SUCCESS (Some result) (coordinates s) (errorMsg s).

(** The [catch] of [handleSearch]. *)
Definition onSearchFailed (s : State) : State :=
  mkState (query s) ERROR (data s) (coordinates s)
    (Some "Ocorreu um erro ao buscar rotas reais. Tente novamente."%string).

(** [handleGeolocation], up to [getCurrentPosition]. *)
Definition handleGeolocation (geolocation : bool) (s : State) : State :=
  if negb geolocation then
    mkState (query s) (status s) (data s) (coordinates s)
      (Some "Geolocalização não é suportada pelo seu navegador."%string)
  else mkState (query s) LOADING (data s) (coordinates s) (errorMsg s).

(** The success callback of [getCurrentPosition]. *)
Definition onLocated (coords : Coordinates) (s : State) : State * Request :=
  (mkState "Minha Posição" (status s) (data s) (Some coords) (errorMsg s),
   mkRequest "minha localização atual" (Some coords)).

(** The [catch] of the search started by that callback. *)
Definition onLocatedSearchFailed (s : State) : State :=
  mkState (query s) ERROR (data s) (coordinates s)
    (Some "Falha ao buscar domínios de corrida para sua localização."%string).

(** The error callback of [getCurrentPosition]. *)
Definition onLocateFailed (permissionDenied : bool) (s : State) : State :=
  let msg :=
    if permissionDenied
    then "Acesso ao GPS negado. Digite sua localização manualmente."%string
    else "Não foi possível obter sua localização."%string in
  mkState (query s) IDLE (data s) (coordinates s) (Some msg).

Definition updateCoordinates (coords : Coordinates) (s : State) : State :=
  mkState (query s) (status s) (data s) (Some coords) (errorMsg s).

Definition setQuery (q : string) (s : State) : State :=
  mkState q (status s) (data s) (coordinates s) (errorMsg s).

(** What can happen to the mounted application.  The callbacks of a
    request are events of their own; they are not tied here to the
    request that causes them. *)
Inductive Event : Type :=
  | ChangeQuery (q : string)
  | Submit
  | RoutesArrived (result : GeminiResponseData)
  | SearchFailed
  | ClickGeolocation (geolocation : bool)
  | Located (coords : Coordinates)
  | LocatedSearchFailed
  | LocateFailed (permissionDenied : bool)
  | CoordinatesUpdated (coords : Coordinates).

Definition step (e : Event) (s : State) : State :=
  match e with
  | ChangeQuery q => setQuery q s
  | Submit => fst (handleSearch s)
  | RoutesArrived result => onRoutes result s
  | SearchFailed => onSearchFailed s
  | ClickGeolocation geolocation => handleGeolocation geolocation s
  | Located coords => fst (onLocated coords s)
  | LocatedSearchFailed => onLocatedSearchFailed s
  | LocateFailed denied => onLocateFailed denied s
  | CoordinatesUpdated coords => updateCoordinates coords s
  end.

(** The requests an event sends to the route provider. *)
Definition requestOf (e : Event) (s : State) : option Request :=
  match e with
  | Submit => snd (handleSearch s)
  | Located coords => Some (snd (onLocated coords s))
  | _ => None
  end.

Inductive reachable : State -> Prop :=
  | reachable_initial : reachable initial
  | reachable_step s e : reachable s -> reachable (step e s).

End WithResponse.

Arguments mkState {GeminiResponseData} _ _ _ _ _.
Arguments query {GeminiResponseData} _.
Arguments status {GeminiResponseData} _.
Arguments data {GeminiResponseData} _.
Arguments coordinates {GeminiResponseData} _.
Arguments errorMsg {GeminiResponseData} _.
Arguments initial {GeminiResponseData}.
Arguments handleSearch {GeminiResponseData} trim s.
Arguments onLocated {GeminiResponseData} coords s.
Arguments ChangeQuery {GeminiResponseData} q.
Arguments Submit {GeminiResponseData}.
Arguments RoutesArrived {GeminiResponseData} result.
Arguments SearchFailed {GeminiResponseData}.
Arguments ClickGeolocation {GeminiResponseData} geolocation.
Arguments Located {GeminiResponseData} coords.
Arguments LocatedSearchFailed {GeminiResponseData}.
Arguments LocateFailed {GeminiResponseData} permissionDenied.
Arguments CoordinatesUpdated {GeminiResponseData} coords.
Arguments step {GeminiResponseData} trim e s.
Arguments requestOf {GeminiResponseData} trim e s.
Arguments reachable {GeminiResponseData} trim _.

End App.

(** * Properties *)

(** ** The geodesic calculator *)

Module GeoFacts.
Import GeoUtils.

Lemma asin_nonneg (x : R) : 0 <= x -> 0 <= asin x.
Proof.
  intros Hx. pose proof PI_RGT_0 as Hpi.
  unfold asin.
  destruct (Rle_dec x (-1)) as [Hlo | Hlo]; [lra |].
  destruct (Rle_dec 1 x) as [Hhi | Hhi]; [lra |].
  assert (Hsq : 0 < sqrt (1 - x²)).
  { apply sqrt_lt_R0. unfold Rsqr. nra. }
  destruct (Req_dec x 0) as [-> | Hnz].
  - unfold Rdiv. rewrite Rmult_0_l, atan_0. lra.
  - assert (Hq : 0 < x / sqrt (1 - x²)).
    { apply Rdiv_lt_0_compat; lra. }
    apply atan_increasing in Hq. rewrite atan_0 in Hq. lra.
Qed.

Lemma toRad_opp (d : R) : toRad (- d) = - toRad d.
Proof. unfold toRad. lra. Qed.

Lemma sqr_sin_half_opp (x : R) : Rsqr (sin (- x / 2)) = Rsqr (sin (x / 2)).
Proof.
  replace (- x / 2) with (- (x / 2)) by lra.
  rewrite sin_neg. symmetry. apply Rsqr_neg.
Qed.

Lemma haversine_sym (lat1 lng1 lat2 lng2 : R) :
  haversine lat1 lng1 lat2 lng2 = haversine lat2 lng2 lat1 lng1.
Proof.
  unfold haversine.
  replace (lat1 - lat2) with (- (lat2 - lat1)) by lra.
  replace (lng1 - lng2) with (- (lng2 - lng1)) by lra.
  rewrite !toRad_opp, !sqr_sin_half_opp. ring.
Qed.

Lemma haversine_same (lat0 lng0 : R) : haversine lat0 lng0 lat0 lng0 = 0.
Proof.
  unfold haversine, toRad.
  replace ((lat0 - lat0) * PI / 180 / 2) with 0 by lra.
  replace ((lng0 - lng0) * PI / 180 / 2) with 0 by lra.
  rewrite sin_0. unfold Rsqr. ring.
Qed.

Lemma calculateDistance_nonneg (lat1 lng1 lat2 lng2 : R) :
  0 <= calculateDistance lat1 lng1 lat2 lng2.
Proof.
  unfold calculateDistance, earthRadiusKm.
  pose proof (asin_nonneg _ (sqrt_pos (haversine lat1 lng1 lat2 lng2))).
  lra.
Qed.

Lemma calculateDistance_same (lat0 lng0 : R) :
  calculateDistance lat0 lng0 lat0 lng0 = 0.
Proof.
  unfold calculateDistance.
  rewrite haversine_same, sqrt_0, asin_0. ring.
Qed.

Lemma calculateDistance_sym (lat1 lng1 lat2 lng2 : R) :
  calculateDistance lat1 lng1 lat2 lng2 = calculateDistance lat2 lng2 lat1 lng1.
Proof.
  unfold calculateDistance. now rewrite haversine_sym.
Qed.

(** Along a meridian, over at most half a turn, the distance is the arc:
    radius times the difference of latitude in radians. *)
Lemma calculateDistance_meridian (lat1 lat2 lng0 : R) :
  0 <= lat2 - lat1 <= 180 ->
  calculateDistance lat1 lng0 lat2 lng0 = earthRadiusKm * toRad (lat2 - lat1).
Proof.
  intros Hd. pose proof PI_RGT_0 as Hpi.
  unfold calculateDistance, haversine.
  replace (toRad (lng0 - lng0) / 2) with 0 by (unfold toRad; lra).
  rewrite sin_0.
  replace (Rsqr (sin (toRad (lat2 - lat1) / 2))
           + cos (toRad lat1) * cos (toRad lat2) * Rsqr 0)
    with (Rsqr (sin (toRad (lat2 - lat1) / 2))) by (unfold Rsqr; ring).
  assert (Hr : 0 <= toRad (lat2 - lat1) / 2 <= PI / 2).
  { unfold toRad. split; nra. }
  rewrite sqrt_Rsqr.
  - rewrite asin_sin by lra. lra.
  - apply sin_ge_0; lra.
Qed.

End GeoFacts.

Module PaceFacts.
Import GeoUtils.

Lemma Int_part_IZR (z : Z) : Int_part (IZR z) = z.
Proof. symmetry. apply Int_part_spec. lra. Qed.

Lemma Int_part_bounds (r : R) : IZR (Int_part r) <= r < IZR (Int_part r) + 1.
Proof.
  destruct (base_Int_part r) as [Hle Hgt]. split; lra.
Qed.

(** The minutes and seconds of a pace add up to its whole seconds. *)
Lemma pace_split (p : R) :
  let m := paceMinutes p in
  let s := paceSeconds_rem p in
  (0 <= s < 60)%Z /\ IZR (60 * m + s) <= p < IZR (60 * m + s) + 1.
Proof.
  intros m s. subst m s. unfold paceSeconds_rem.
  set (m := paceMinutes p).
  pose proof (Int_part_bounds (p / 60)) as Hm. fold (paceMinutes p) in Hm.
  fold m in Hm.
  pose proof (Int_part_bounds (p - 60 * IZR m)) as Hs.
  set (s := Int_part (p - 60 * IZR m)) in *.
  assert (Hrem : 0 <= p - 60 * IZR m < 60) by lra.
  split.
  - split.
    + assert (H : IZR (-1) < IZR s) by lra.
      apply lt_IZR in H. lia.
    + assert (H : IZR s < IZR 60) by lra.
      apply lt_IZR in H. lia.
  - rewrite plus_IZR, mult_IZR. lra.
Qed.

Lemma padStart2_two_digits (n : nat) :
  (n < 60)%nat -> String.length (padStart2 (Z.of_nat n)) = 2%nat.
Proof.
  intros Hn.
  do 60 (destruct n as [| n]; [reflexivity |]).
  lia.
Qed.

Lemma padStart2_seconds (s : Z) :
  (0 <= s < 60)%Z -> String.length (padStart2 s) = 2%nat.
Proof.
  intros Hs. rewrite <- (Z2Nat.id s) by lia.
  apply padStart2_two_digits. lia.
Qed.

Lemma calculatePace_sentinel (d : R) (t : Z) :
  d <= 0 -> calculatePace d t = "--:--"%string.
Proof.
  intros Hd. unfold calculatePace.
  destruct (Rle_dec d 0); [reflexivity | contradiction].
Qed.

Lemma calculatePace_moving (d : R) (t : Z) :
  0 < d ->
  calculatePace d t =
    (padStart2 (paceMinutes (IZR t / d)) ++ ":"
       ++ padStart2 (paceSeconds_rem (IZR t / d)))%string.
Proof.
  intros Hd. unfold calculatePace.
  destruct (Rle_dec d 0); [lra | reflexivity].
Qed.

Lemma calculatePace_10_3600 : calculatePace 10 3600 = "06:00"%string.
Proof.
  rewrite calculatePace_moving by lra.
  assert (Hm : paceMinutes (3600 / 10) = 6%Z).
  { unfold paceMinutes. replace (3600 / 10 / 60) with (IZR 6) by lra.
    apply Int_part_IZR. }
  unfold paceSeconds_rem. rewrite Hm.
  replace (3600 / 10 - 60 * 6) with (IZR 0) by lra.
  rewrite Int_part_IZR. reflexivity.
Qed.

(** Decimal printing tells integers apart. *)
Lemma toString_inj (a b : Z) : toString a = toString b -> a = b.
Proof.
  unfold toString. intros H.
  assert (Hnz : forall z, Z.to_int z <> Pos Nil /\ Z.to_int z <> Neg Nil).
  { intros z. destruct z as [| p | p]; simpl; split; try discriminate;
      intros [= Hp]; revert Hp; apply DecimalPos.Unsigned.to_uint_nonnil. }
  apply DecimalZ.to_int_inj.
  assert (Hs : Some (Z.to_int a) = Some (Z.to_int b)).
  { rewrite <- (NilZero.isi (Z.to_int a)) by apply Hnz.
    rewrite <- (NilZero.isi (Z.to_int b)) by apply Hnz.
    now rewrite H. }
  now injection Hs.
Qed.

End PaceFacts.

(** ** The run session tracker *)

Module TrackerFacts.
Import GeoUtils ResultDisplay.

Lemma lastPoint_snoc (p : list Coordinates) (c : Coordinates) :
  lastPoint (p ++ [c]) = Some c.
Proof.
  induction p as [| a p IH]; [reflexivity |].
  destruct p as [| b p]; [reflexivity |].
  exact IH.
Qed.

Lemma spaced_snoc (p : list Coordinates) (last c : Coordinates) :
  spaced p -> lastPoint p = Some last ->
  ~ distanceBetween last c < noiseThresholdKm ->
  spaced (p ++ [c]).
Proof.
  induction p as [| a p IH]; intros Hsp Hlast Hfar; [discriminate |].
  destruct p as [| b p].
  - injection Hlast as ->. simpl. auto.
  - destruct Hsp as [Hab Hrest].
    change (spaced (a :: (b :: p) ++ [c])).
    split; [exact Hab |].
    apply IH; assumption.
Qed.

Lemma extends_refl (p : list Coordinates) : extends p p.
Proof. exists []. now rewrite app_nil_r. Qed.

Lemma extends_snoc (p : list Coordinates) (c : Coordinates) :
  extends (p ++ [c]) p.
Proof. now exists [c]. Qed.

(** *** The position callback, case by case *)

Lemma onPosition_accept (s : State) (last c : Coordinates) :
  lastLocationRef s = Some last ->
  distanceBetween last c > noiseThresholdKm ->
  runMetrics (onPosition c s) =
    mkRunMetrics (distanceKm (runMetrics s) + distanceBetween last c)
      (elapsedTimeSeconds (runMetrics s)) (currentPace (runMetrics s))
      (path (runMetrics s) ++ [c]) (isTracking (runMetrics s))
  /\ lastLocationRef (onPosition c s) = Some c.
Proof.
  intros Hlast Hfar. unfold onPosition. cbn [lastLocationRef onUpdateCoordinates].
  rewrite Hlast.
  destruct (Rgt_dec (distanceBetween last c) noiseThresholdKm);
    [split; reflexivity | contradiction].
Qed.

Lemma onPosition_discard (s : State) (last c : Coordinates) :
  lastLocationRef s = Some last ->
  distanceBetween last c <= noiseThresholdKm ->
  runMetrics (onPosition c s) = runMetrics s
  /\ lastLocationRef (onPosition c s) = lastLocationRef s.
Proof.
  intros Hlast Hnear. unfold onPosition. cbn [lastLocationRef onUpdateCoordinates].
  rewrite Hlast.
  destruct (Rgt_dec (distanceBetween last c) noiseThresholdKm) as [Hgt | _].
  - unfold Rgt in Hgt. lra.
  - split; [reflexivity | exact Hlast].
Qed.

Lemma onPosition_first (s : State) (c : Coordinates) :
  lastLocationRef s = None ->
  runMetrics (onPosition c s) =
    mkRunMetrics (distanceKm (runMetrics s))
      (elapsedTimeSeconds (runMetrics s)) (currentPace (runMetrics s))
      [c] (isTracking (runMetrics s))
  /\ lastLocationRef (onPosition c s) = Some c.
Proof.
  intros Hlast. unfold onPosition. cbn [lastLocationRef onUpdateCoordinates].
  rewrite Hlast. split; reflexivity.
Qed.

(** The callback leaves everything but the metrics, the last-known
    position and the forwarded coordinates alone. *)
Lemma onPosition_frame (s : State) (c : Coordinates) :
  stateIsTracking (onPosition c s) = stateIsTracking s
  /\ watchIdRef (onPosition c s) = watchIdRef s
  /\ timerIntervalRef (onPosition c s) = timerIntervalRef s
  /\ geolocation (onPosition c s) = geolocation s
  /\ localStorage (onPosition c s) = localStorage s
  /\ selectedPlace (onPosition c s) = selectedPlace s
  /\ isTracking (runMetrics (onPosition c s)) = isTracking (runMetrics s)
  /\ userCoordinates (onPosition c s) = Some c.
Proof.
  unfold onPosition. cbn [lastLocationRef onUpdateCoordinates].
  destruct (lastLocationRef s) as [last |].
  - destruct (Rgt_dec (distanceBetween last c) noiseThresholdKm);
      repeat split; reflexivity.
  - repeat split; reflexivity.
Qed.


(** *** Saving and stopping, case by case *)

Lemma emptySession_dec (m : RunMetrics) :
  {emptySession m} + {~ emptySession m}.
Proof.
  unfold emptySession.
  destruct (Req_dec_T (distanceKm m) 0) as [Hd | Hd];
    destruct (Z.eq_dec (elapsedTimeSeconds m) 0) as [Ht | Ht];
    tauto.
Qed.

Lemma save_guard (m : RunMetrics) :
  andb (if Req_dec_T (distanceKm m) 0 then true else false)
       (elapsedTimeSeconds m =? 0)%Z = true <-> emptySession m.
Proof.
  unfold emptySession. rewrite andb_true_iff, Z.eqb_eq.
  destruct (Req_dec_T (distanceKm m) 0); intuition discriminate.
Qed.

Lemma save_skip (now today : Z) (s : State) :
  emptySession (runMetrics s) -> saveRunToHistory now today s = Normal s.
Proof.
  intros He. unfold saveRunToHistory.
  apply save_guard in He. now rewrite He.
Qed.

Lemma save_unguarded (now today : Z) (s : State) :
  ~ emptySession (runMetrics s) ->
  saveRunToHistory now today s =
    try_catch (saveRunToHistory_body now today s) (fun _ => Normal s).
Proof.
  intros He. unfold saveRunToHistory.
  destruct (andb _ _) eqn:Hg; [| reflexivity].
  apply save_guard in Hg. contradiction.
Qed.

Lemma save_body_ok (now today : Z) (s : State) :
  storageFails (localStorage s) = false ->
  saveRunToHistory_body now today s =
    Normal (setLocalStorage
              (mkLocalStorage
                 (Some (Serialized (persisted (localStorage s)
                                      ++ [entryOf now today s])))
                 false) s).
Proof.
  unfold storageFails, unparseable, saveRunToHistory_body, persisted,
    getItem, setItem, JSON_stringify, entryOf.
  intros Hok. apply orb_false_iff in Hok as [Hparse Hquota].
  rewrite Hquota.
  destruct (runHistory (localStorage s)) as [[| raw | h] |];
    try discriminate; reflexivity.
Qed.

Lemma save_body_fails (now today : Z) (s : State) :
  storageFails (localStorage s) = true ->
  exists e, saveRunToHistory_body now today s = Throw e.
Proof.
  unfold storageFails, unparseable, saveRunToHistory_body, getItem, setItem.
  intros Hbad.
  destruct (runHistory (localStorage s)) as [[| raw | h] |]; cbn in *;
    try (rewrite Hbad; eexists; reflexivity).
  eexists; reflexivity.
Qed.

(** What [saveRunToHistory] comes to in each of its three cases. *)
Lemma save_cases (now today : Z) (s : State) :
  (emptySession (runMetrics s) \/ storageFails (localStorage s) = true) /\
    saveRunToHistory now today s = Normal s
  \/
  (~ emptySession (runMetrics s) /\ storageFails (localStorage s) = false) /\
    saveRunToHistory now today s =
      Normal (setLocalStorage
                (mkLocalStorage
                   (Some (Serialized (persisted (localStorage s)
                                        ++ [entryOf now today s])))
                   false) s).
Proof.
  destruct (emptySession_dec (runMetrics s)) as [He | He].
  - left. split; [now left | now apply save_skip].
  - rewrite save_unguarded by assumption.
    destruct (storageFails (localStorage s)) eqn:Hf.
    + left. split; [now right |].
      destruct (save_body_fails now today s Hf) as [e ->]. reflexivity.
    + right. split; [now split |].
      now rewrite save_body_ok.
Qed.

Lemma stop_idle (now today : Z) (s : State) :
  stateIsTracking s = false ->
  stopTracking now today s =
    Normal (setIsTracking false (setSubscriptions false false s)).
Proof.
  intros Hidle. unfold stopTracking. now rewrite Hidle.
Qed.

Lemma stop_tracking (now today : Z) (s : State) :
  stateIsTracking s = true ->
  stopTracking now today s =
    (s2 <- saveRunToHistory now today (setSubscriptions false false s) ;;
     Normal (setIsTracking false s2)).
Proof.
  intros Htr. unfold stopTracking. now rewrite Htr.
Qed.

(** [stopTracking] always returns; it touches the metrics and the
    last-known position never, and the store only by a successful save. *)
Lemma stop_cases (now today : Z) (s : State) :
  exists s',
    stopTracking now today s = Normal s'
    /\ runMetrics s' = runMetrics s
    /\ lastLocationRef s' = lastLocationRef s
    /\ stateIsTracking s' = false
    /\ watchIdRef s' = false /\ timerIntervalRef s' = false
    /\ geolocation s' = geolocation s
    /\ ((localStorage s' = localStorage s
         /\ (stateIsTracking s = false
             \/ emptySession (runMetrics s)
             \/ storageFails (localStorage s) = true))
        \/
        (localStorage s' =
           mkLocalStorage
             (Some (Serialized (persisted (localStorage s)
                                  ++ [entryOf now today s]))) false
         /\ stateIsTracking s = true
         /\ ~ emptySession (runMetrics s)
         /\ storageFails (localStorage s) = false)).
Proof.
  destruct (stateIsTracking s) eqn:Htr.
  - rewrite stop_tracking by assumption.
    destruct (save_cases now today (setSubscriptions false false s))
      as [[Hwhy ->] | [[Hne Hok] ->]]; cbn [bind] in *.
    + eexists; repeat split; try reflexivity.
      left. split; [reflexivity |]. right. exact Hwhy.
    + eexists; repeat split; try reflexivity.
      right. repeat split; assumption.
  - rewrite stop_idle by assumption.
    eexists; repeat split; try reflexivity.
    left. split; [reflexivity | now left].
Qed.


(** *** The invariant of the component *)

Lemma lastPoint_none (p : list Coordinates) : lastPoint p = None -> p = [].
Proof.
  induction p as [| a p IH]; [reflexivity |].
  destruct p as [| b p]; [discriminate |].
  intros H. specialize (IH H). discriminate.
Qed.

Lemma consistent_mount geo uc ls : consistent (mount geo uc ls).
Proof.
  repeat split; cbn in *; discriminate.
Qed.

Lemma consistent_start (s : State) : consistent s -> consistent (startTracking s).
Proof.
  intros Hs. unfold startTracking.
  destruct (geolocation s); cbn [negb]; [| exact Hs].
  unfold consistent. cbn.
  destruct (userCoordinates s); cbn; auto.
Qed.

Lemma consistent_timer (s : State) : consistent s -> consistent (onTimer s).
Proof. intros Hs. exact Hs. Qed.

Lemma consistent_position (s : State) (c : Coordinates) :
  consistent s -> consistent (onPosition c s).
Proof.
  intros (Hlast & Hsp & Htr).
  destruct (onPosition_frame s c)
    as (Hst & Hw & Ht & _ & _ & _ & Hflag & _).
  unfold consistent. rewrite Hst, Hw, Ht, Hflag.
  destruct (lastLocationRef s) as [last |] eqn:Hl.
  - destruct (Rgt_dec (distanceBetween last c) noiseThresholdKm) as [Hfar | Hnear].
    + destruct (onPosition_accept s last c Hl Hfar) as [-> ->].
      cbn [path]. rewrite lastPoint_snoc.
      repeat split; try apply Htr; auto.
      apply spaced_snoc with (last := last); auto.
      unfold Rgt in Hfar. lra.
    + assert (Hle : distanceBetween last c <= noiseThresholdKm).
      { unfold Rgt in Hnear. lra. }
      destruct (onPosition_discard s last c Hl Hle) as [-> ->].
      rewrite Hl. auto.
  - destruct (onPosition_first s c Hl) as [-> ->].
    cbn. auto.
Qed.

Lemma dispatch_total (e : Event) (s : State) :
  exists s', dispatch e s = Normal s'.
Proof.
  destruct e; cbn [dispatch]; try (eexists; reflexivity).
  destruct (stop_cases now today s) as (s' & Hs' & _). now exists s'.
Qed.

Lemma consistent_dispatch (e : Event) (s s' : State) :
  consistent s -> dispatch e s = Normal s' -> consistent s'.
Proof.
  intros Hs Hd. destruct e; cbn [dispatch] in Hd.
  - injection Hd as <-.
    destruct (stateIsTracking s); [exact Hs | now apply consistent_start].
  - destruct (stop_cases now today s)
      as (s1 & H1 & Hm & Hl & Htr & _).
    rewrite H1 in Hd. injection Hd as <-.
    destruct Hs as (Hlast & Hsp & _).
    unfold consistent. rewrite Hm, Hl, Htr.
    repeat split; auto; discriminate.
  - injection Hd as <-.
    destruct (timerIntervalRef s); [now apply consistent_timer | exact Hs].
  - injection Hd as <-.
    destruct (watchIdRef s); [now apply consistent_position | exact Hs].
  - injection Hd as <-.
    destruct (watchIdRef s); exact Hs.
  - injection Hd as <-. exact Hs.
  - injection Hd as <-. exact Hs.
  - injection Hd as <-.
    destruct Hs as (Hlast & Hsp & _).
    repeat split; auto; discriminate.
Qed.

Lemma reachable_consistent (s : State) : reachable s -> consistent s.
Proof.
  induction 1 as [geo uc ls | s e s' _ IH Hd].
  - apply consistent_mount.
  - eapply consistent_dispatch; eassumption.
Qed.

(** Outside a start, an event never lowers the distance nor rewrites the
    path. *)
Lemma dispatch_monotone (e : Event) (s s' : State) :
  consistent s -> dispatch e s = Normal s' -> e <> ClickStart ->
  distanceKm (runMetrics s) <= distanceKm (runMetrics s')
  /\ extends (path (runMetrics s')) (path (runMetrics s)).
Proof.
  intros (Hlast & Hsp & _) Hd Hne.
  assert (Hsame : runMetrics s' = runMetrics s ->
            distanceKm (runMetrics s) <= distanceKm (runMetrics s')
            /\ extends (path (runMetrics s')) (path (runMetrics s))).
  { intros ->. split; [lra | apply extends_refl]. }
  destruct e; cbn [dispatch] in Hd; try contradiction.
  - destruct (stop_cases now today s) as (s1 & H1 & Hm & _).
    rewrite H1 in Hd. injection Hd as <-. auto.
  - injection Hd as <-.
    destruct (timerIntervalRef s); [| auto].
    cbn. split; [lra | apply extends_refl].
  - injection Hd as <-.
    destruct (watchIdRef s); [| auto].
    destruct (lastLocationRef s) as [last |] eqn:Hl.
    + destruct (Rgt_dec (distanceBetween last c) noiseThresholdKm) as [Hfar | Hnear].
      * destruct (onPosition_accept s last c Hl Hfar) as [-> _].
        cbn. split; [| apply extends_snoc].
        unfold Rgt, noiseThresholdKm in Hfar. lra.
      * assert (Hle : distanceBetween last c <= noiseThresholdKm).
        { unfold Rgt in Hnear. lra. }
        destruct (onPosition_discard s last c Hl Hle) as [Hm _]. auto.
    + destruct (onPosition_first s c Hl) as [-> _].
      symmetry in Hlast. apply lastPoint_none in Hlast.
      cbn. rewrite Hlast. split; [lra | now exists [c]].
  - injection Hd as <-. destruct (watchIdRef s); auto.
  - injection Hd as <-. auto.
  - injection Hd as <-. auto.
  - injection Hd as <-. auto.
Qed.

(** *** Runs of events *)

Lemma run_cons (e : Event) (es : list Event) (s : State) :
  run (e :: es) s = (s' <- dispatch e s ;; run es s').
Proof. reflexivity. Qed.

Lemma extends_trans (p q r : list Coordinates) :
  extends q p -> extends r q -> extends r p.
Proof.
  intros [a ->] [b ->]. exists (a ++ b). now rewrite app_assoc.
Qed.

Lemma run_reachable (es : list Event) (s : State) :
  reachable s -> exists s', run es s = Normal s' /\ reachable s'.
Proof.
  revert s. induction es as [| e es IH]; intros s Hs.
  - now exists s.
  - destruct (dispatch_total e s) as (s1 & H1).
    destruct (IH s1 (reachable_step s e s1 Hs H1)) as (s' & Hrun & Hs').
    exists s'. split; [| exact Hs'].
    rewrite run_cons, H1. exact Hrun.
Qed.

Lemma run_monotone (es : list Event) (s s' : State) :
  consistent s -> run es s = Normal s' -> ~ In ClickStart es ->
  distanceKm (runMetrics s) <= distanceKm (runMetrics s')
  /\ extends (path (runMetrics s')) (path (runMetrics s)).
Proof.
  revert s. induction es as [| e es IH]; intros s Hs Hrun Hno.
  - injection Hrun as <-. split; [lra | apply extends_refl].
  - rewrite run_cons in Hrun.
    destruct (dispatch_total e s) as (s1 & H1). rewrite H1 in Hrun.
    cbn [bind] in Hrun.
    assert (He : e <> ClickStart).
    { intros ->. apply Hno. now left. }
    destruct (dispatch_monotone e s s1 Hs H1 He) as [Hd Hp].
    destruct (IH s1 (consistent_dispatch e s s1 Hs H1) Hrun) as [Hd' Hp'].
    { intros Hin. apply Hno. now right. }
    split; [lra | eapply extends_trans; eassumption].
Qed.

(** *** Stopping a session, by outcome *)

Lemma stop_saves (now today : Z) (s : State) :
  stateIsTracking s = true ->
  ~ emptySession (runMetrics s) ->
  storageFails (localStorage s) = false ->
  stopTracking now today s =
    Normal (setIsTracking false
              (setLocalStorage
                 (mkLocalStorage
                    (Some (Serialized (persisted (localStorage s)
                                         ++ [entryOf now today s])))
                    false)
                 (setSubscriptions false false s))).
Proof.
  intros Htr Hne Hok.
  rewrite stop_tracking by assumption.
  rewrite save_unguarded by exact Hne.
  rewrite save_body_ok by exact Hok. reflexivity.
Qed.

Lemma stop_keeps_store (now today : Z) (s : State) :
  stateIsTracking s = false \/ emptySession (runMetrics s)
    \/ storageFails (localStorage s) = true ->
  stopTracking now today s =
    Normal (setIsTracking false (setSubscriptions false false s)).
Proof.
  intros Hwhy.
  destruct (stateIsTracking s) eqn:Htr; [| now apply stop_idle].
  rewrite stop_tracking by assumption.
  destruct (save_cases now today (setSubscriptions false false s))
    as [[_ ->] | [[Hne Hok] _]]; [reflexivity |].
  exfalso. destruct Hwhy as [H | [H | H]].
  - discriminate.
  - now apply Hne.
  - cbn in Hok. congruence.
Qed.

(** The entry a stop adds to the store, when it adds one, is the one
    built from the clock and the metrics at that moment. *)
Lemma stop_new_entry (now today : Z) (s s' : State) (e : RunHistoryEntry) :
  stopTracking now today s = Normal s' ->
  persisted (localStorage s') = persisted (localStorage s) ++ [e] ->
  e = entryOf now today s.
Proof.
  intros Hstop Hnew.
  destruct (stop_cases now today s)
    as (s1 & H1 & _ & _ & _ & _ & _ & _ & [[Hls _] | [Hls _]]);
    rewrite H1 in Hstop; injection Hstop as <-; rewrite Hls in Hnew.
  - apply (f_equal (@List.length _)) in Hnew.
    rewrite length_app in Hnew. cbn in Hnew. lia.
  - cbn [persisted runHistory] in Hnew.
    apply app_inv_head in Hnew. now injection Hnew.
Qed.

(** Whatever a stop adds to the store was saved while the metrics still
    said "tracking". *)
Lemma saved_snapshot_flag (now today : Z) (s s' : State) (e : RunHistoryEntry) :
  reachable s ->
  stopTracking now today s = Normal s' ->
  persisted (localStorage s') = persisted (localStorage s) ++ [e] ->
  isTracking (metrics e) = true.
Proof.
  intros Hs Hstop Hnew.
  rewrite (stop_new_entry now today s s' e Hstop Hnew). cbn [entryOf metrics].
  destruct (reachable_consistent s Hs) as (_ & _ & Hlive).
  destruct (stop_cases now today s)
    as (s1 & H1 & _ & _ & _ & _ & _ & _ & [[Hls _] | [_ (Htr & _)]]).
  - rewrite H1 in Hstop. injection Hstop as <-. rewrite Hls in Hnew.
    apply (f_equal (@List.length _)) in Hnew.
    rewrite length_app in Hnew. cbn in Hnew. lia.
  - now apply Hlive.
Qed.

End TrackerFacts.

(** ** The run history loader *)

Module HistoryFacts.
Import RunHistory.

Lemma compareFn_le (x y : RunHistoryEntry) :
  (compareFn x y <=? 0)%Z = true <-> (date y <= date x)%Z.
Proof. unfold compareFn. rewrite Z.leb_le. lia. Qed.

Lemma insert_perm (x : RunHistoryEntry) (l : list RunHistoryEntry) :
  Permutation (x :: l) (insert x l).
Proof.
  induction l as [| y l IH]; cbn [insert]; [reflexivity |].
  destruct (compareFn x y <=? 0)%Z; [reflexivity |].
  rewrite perm_swap. now apply perm_skip.
Qed.

Lemma sort_perm (l : list RunHistoryEntry) : Permutation l (sort l).
Proof.
  induction l as [| x l IH]; cbn [sort]; [constructor |].
  rewrite <- insert_perm. now apply perm_skip.
Qed.

Lemma insert_newestFirst (x : RunHistoryEntry) (l : list RunHistoryEntry) :
  newestFirst l -> newestFirst (insert x l).
Proof.
  unfold newestFirst.
  induction l as [| y l IH]; intros Hl; cbn [insert].
  - repeat constructor.
  - destruct (compareFn x y <=? 0)%Z eqn:Hc.
    + apply compareFn_le in Hc.
      constructor; [exact Hl |].
      constructor; [exact Hc |].
      apply StronglySorted_inv in Hl as [_ Hy].
      eapply Forall_impl; [| exact Hy]. cbn. intros z Hz. lia.
    + assert (Hxy : (date x <= date y)%Z).
      { destruct (Z.le_gt_cases (date y) (date x)) as [Hle | Hgt]; [| lia].
        apply compareFn_le in Hle. congruence. }
      apply StronglySorted_inv in Hl as [Hl Hy].
      constructor; [now apply IH |].
      rewrite <- insert_perm. now constructor.
Qed.

Lemma sort_newestFirst (l : list RunHistoryEntry) : newestFirst (sort l).
Proof.
  induction l as [| x l IH]; cbn [sort].
  - constructor.
  - now apply insert_newestFirst.
Qed.

Lemma loadHistory_serialized (h : list RunHistoryEntry) (q : bool) :
  loadHistory (mkLocalStorage (Some (Serialized h)) q) = sort h.
Proof. reflexivity. Qed.

End HistoryFacts.

(** ** Worked sessions *)

Module Scenarios.
Import GeoUtils ResultDisplay GeoFacts PaceFacts TrackerFacts.

Example formatTime_65 : formatTime 65 = "01:05"%string.
Proof. reflexivity. Qed.

Example formatTime_3661 : formatTime 3661 = "61:01"%string.
Proof. reflexivity. Qed.

(** A state just after a start at the origin. *)
Lemma started_at_origin :
  dispatch ClickStart
    (mount true (Some (mkCoordinates 0 0)) (mkLocalStorage None false))
  = Normal
      (mkState None true
         (mkRunMetrics 0 0 "--:--" [mkCoordinates 0 0] true) true true
         (Some (mkCoordinates 0 0)) (Some (mkCoordinates 0 0)) true
         (mkLocalStorage None false)).
Proof. reflexivity. Qed.

Lemma north_of_origin (deg : R) :
  0 <= deg <= 180 ->
  distanceBetween (mkCoordinates 0 0) (mkCoordinates deg 0)
  = 6371 * (deg * PI / 180).
Proof.
  intros Hdeg. unfold distanceBetween. cbn [latitude longitude].
  rewrite calculateDistance_meridian by lra.
  unfold earthRadiusKm, toRad. now rewrite Rminus_0_r.
Qed.

(** A fix some three metres north of the last-known position is noise. *)
Example fix_three_metres_away (s : State) :
  lastLocationRef s = Some (mkCoordinates 0 0) ->
  runMetrics (onPosition (mkCoordinates 0.00003 0) s) = runMetrics s.
Proof.
  intros Hlast.
  apply (onPosition_discard s _ _ Hlast).
  rewrite north_of_origin by lra.
  pose proof PI_4. unfold noiseThresholdKm. lra.
Qed.

(** A fix some eleven metres north is recorded. *)
Example fix_eleven_metres_away (s : State) :
  lastLocationRef s = Some (mkCoordinates 0 0) ->
  distanceKm (runMetrics (onPosition (mkCoordinates 0.0001 0) s))
    > distanceKm (runMetrics s)
  /\ path (runMetrics (onPosition (mkCoordinates 0.0001 0) s))
     = path (runMetrics s) ++ [mkCoordinates 0.0001 0].
Proof.
  intros Hlast.
  assert (Hfar : distanceBetween (mkCoordinates 0 0) (mkCoordinates 0.0001 0)
                 > noiseThresholdKm).
  { rewrite north_of_origin by lra.
    pose proof PI2_3_2. unfold noiseThresholdKm. lra. }
  destruct (onPosition_accept s _ _ Hlast Hfar) as [-> _].
  cbn [distanceKm path]. split; [| reflexivity].
  unfold Rgt, noiseThresholdKm in *. lra.
Qed.

End Scenarios.

(** * The specification, statement by statement *)

Import GeoUtils ResultDisplay RunHistory.
Import GeoFacts PaceFacts TrackerFacts HistoryFacts.

(** Brings a state built by the handlers to an explicit record. *)
Ltac explicit_state :=
  cbv [dispatch bind mount startTracking onTimer onPositionError
       setIsTracking setRunMetrics setLastLocation setSubscriptions
       setSelectedPlace setLocalStorage onUpdateCoordinates
       selectedPlace stateIsTracking runMetrics watchIdRef timerIntervalRef
       lastLocationRef userCoordinates geolocation localStorage
       initialMetrics distanceKm elapsedTimeSeconds currentPace path
       isTracking negb persisted runHistory entryOf placeNameOf app];
  simpl Z.add;
  rewrite ?calculatePace_sentinel by lra.

(** C9.  The great-circle distance is never negative, is zero from a
    point to itself, and does not depend on the order of its two points. *)
Theorem calculateDistance_laws :
  (forall lat1 lng1 lat2 lng2 : R,
      0 <= calculateDistance lat1 lng1 lat2 lng2)
  /\ (forall lat0 lng0 : R, calculateDistance lat0 lng0 lat0 lng0 = 0)
  /\ (forall lat1 lng1 lat2 lng2 : R,
        calculateDistance lat1 lng1 lat2 lng2
        = calculateDistance lat2 lng2 lat1 lng1).
Proof.
  split; [| split].
  - apply calculateDistance_nonneg.
  - apply calculateDistance_same.
  - apply calculateDistance_sym.
Qed.

(** C8.  [calculatePace] answers the sentinel ["--:--"] whenever the
    distance is zero or less.  For a positive distance it prints
    [m:s] where [60 * m + s] is the pace [elapsedSeconds / distanceKm]
    cut down to whole seconds (not rounded), [s] is below 60 and printed
    on exactly two digits.  [calculatePace(10, 3600)] is ["06:00"]. *)
Theorem calculatePace_format :
  (forall (d : R) (t : Z), d <= 0 -> calculatePace d t = "--:--"%string)
  /\ (forall (d : R) (t : Z), 0 < d -> (0 <= t)%Z ->
        exists m s : Z,
          (0 <= m)%Z /\ (0 <= s < 60)%Z
          /\ IZR (60 * m + s) <= IZR t / d < IZR (60 * m + s) + 1
          /\ calculatePace d t = (padStart2 m ++ ":" ++ padStart2 s)%string
          /\ String.length (padStart2 s) = 2%nat)
  /\ calculatePace 10 3600 = "06:00"%string.
Proof.
  split; [| split].
  - apply calculatePace_sentinel.
  - intros d t Hd Ht.
    set (p := IZR t / d).
    assert (Hp : 0 <= p).
    { unfold p. apply Rmult_le_pos; [now apply IZR_le |].
      left. now apply Rinv_0_lt_compat. }
    destruct (pace_split p) as [Hs Hsum].
    exists (paceMinutes p), (paceSeconds_rem p).
    repeat split; try apply Hs; try apply Hsum.
    + pose proof (Int_part_bounds (p / 60)) as Hm.
      fold (paceMinutes p) in Hm.
      assert (H : IZR (-1) < IZR (paceMinutes p)) by lra.
      apply lt_IZR in H. lia.
    + now apply calculatePace_moving.
    + now apply padStart2_seconds.
  - apply calculatePace_10_3600.
Qed.

Lemma calculatePace_format_witness :
  calculatePace 0 5 = "--:--"%string
  /\ exists m s : Z,
       (0 <= m)%Z /\ (0 <= s < 60)%Z
       /\ IZR (60 * m + s) <= IZR 3600 / 10 < IZR (60 * m + s) + 1
       /\ calculatePace 10 3600 = (padStart2 m ++ ":" ++ padStart2 s)%string
       /\ String.length (padStart2 s) = 2%nat.
Proof.
  split.
  - apply (proj1 calculatePace_format). lra.
  - apply (proj1 (proj2 calculatePace_format)); [lra | lia].
Defined.

(** C6.  [loadHistory] yields no entry when the key is missing, when the
    stored text is empty and when it does not parse; otherwise it yields
    the stored entries, all of them and nothing else, newest first.  Two
    stored entries come back as those two, the later one first. *)
Theorem loadHistory_newest_first :
  (forall q, loadHistory (mkLocalStorage None q) = [])
  /\ (forall q, loadHistory (mkLocalStorage (Some EmptyText) q) = [])
  /\ (forall raw q, loadHistory (mkLocalStorage (Some (Corrupt raw)) q) = [])
  /\ (forall q, loadHistory (mkLocalStorage (Some (Serialized [])) q) = [])
  /\ (forall h q,
        Permutation h (loadHistory (mkLocalStorage (Some (Serialized h)) q))
        /\ newestFirst (loadHistory (mkLocalStorage (Some (Serialized h)) q)))
  /\ (forall e1 e2 q,
        loadHistory (mkLocalStorage (Some (Serialized [e1; e2])) q)
        = if (date e2 <=? date e1)%Z then [e1; e2] else [e2; e1]).
Proof.
  repeat split; try reflexivity.
  - rewrite loadHistory_serialized. apply sort_perm.
  - rewrite loadHistory_serialized. apply sort_newestFirst.
  - intros e1 e2 q. rewrite loadHistory_serialized.
    cbn [sort insert]. unfold compareFn.
    destruct (date e2 <=? date e1)%Z eqn:Hle.
    + apply Z.leb_le in Hle.
      assert (H : (date e2 - date e1 <=? 0)%Z = true) by (apply Z.leb_le; lia).
      now rewrite H.
    + apply Z.leb_gt in Hle.
      assert (H : (date e2 - date e1 <=? 0)%Z = false) by (apply Z.leb_gt; lia).
      now rewrite H.
Qed.

(** C2.  While the component is tracking, a timer tick adds exactly one
    to [elapsedTimeSeconds], recomputes [currentPace] from the distance
    as it stands and the new time, and leaves distance and path alone.
    A session started from an idle component and ticked five times, with
    no fix in between, shows 5 seconds, distance 0 and pace ["--:--"]. *)
Theorem timer_tick_advances :
  (forall s, reachable s -> stateIsTracking s = true ->
     exists s',
       dispatch TimerTick s = Normal s'
       /\ elapsedTimeSeconds (runMetrics s')
          = (elapsedTimeSeconds (runMetrics s) + 1)%Z
       /\ currentPace (runMetrics s')
          = calculatePace (distanceKm (runMetrics s))
              (elapsedTimeSeconds (runMetrics s) + 1)
       /\ distanceKm (runMetrics s') = distanceKm (runMetrics s)
       /\ path (runMetrics s') = path (runMetrics s))
  /\ (forall s, reachable s -> stateIsTracking s = false ->
        geolocation s = true ->
        exists s',
          run [ClickStart; TimerTick; TimerTick; TimerTick; TimerTick;
               TimerTick] s = Normal s'
          /\ elapsedTimeSeconds (runMetrics s') = 5%Z
          /\ distanceKm (runMetrics s') = 0
          /\ currentPace (runMetrics s') = "--:--"%string).
Proof.
  split.
  - intros s Hs Htr.
    destruct (reachable_consistent s Hs) as (_ & _ & Hlive).
    destruct (Hlive Htr) as (Htimer & _).
    exists (onTimer s). cbn [dispatch]. rewrite Htimer.
    repeat split; reflexivity.
  - intros s _ Hidle Hgeo.
    eexists. split.
    + rewrite run_cons. cbn [dispatch]. rewrite Hidle.
      unfold startTracking. rewrite Hgeo. cbn [negb bind].
      repeat (rewrite run_cons; cbn [dispatch bind];
              cbn [timerIntervalRef setSubscriptions onTimer setRunMetrics]).
      reflexivity.
    + cbn. rewrite !calculatePace_sentinel by lra.
      repeat split; reflexivity.
Qed.

Lemma timer_tick_advances_witness :
  (exists s',
     dispatch TimerTick
       (mkState None true (mkRunMetrics 0 0 "--:--" [] true) true true
          None None true (mkLocalStorage None false)) = Normal s'
     /\ elapsedTimeSeconds (runMetrics s') = 1%Z
     /\ currentPace (runMetrics s') = calculatePace 0 1)
  /\ (exists s',
        run [ClickStart; TimerTick; TimerTick; TimerTick; TimerTick;
             TimerTick] (mount true None (mkLocalStorage None false))
        = Normal s'
        /\ elapsedTimeSeconds (runMetrics s') = 5%Z
        /\ distanceKm (runMetrics s') = 0
        /\ currentPace (runMetrics s') = "--:--"%string).
Proof.
  split.
  - destruct (proj1 timer_tick_advances
                (mkState None true (mkRunMetrics 0 0 "--:--" [] true) true
                   true None None true (mkLocalStorage None false)))
      as (s' & Hd & Ht & Hp & _).
    + apply (reachable_step (mount true None (mkLocalStorage None false))
               ClickStart).
      * apply reachable_mount.
      * reflexivity.
    + reflexivity.
    + exists s'. repeat split; assumption.
  - apply (proj2 timer_tick_advances).
    + apply reachable_mount.
    + reflexivity.
    + reflexivity.
Defined.

(** C1.  A fix exactly 0.005 km from the last-known position is not
    below the threshold, yet the position callback drops it: after a
    start at the origin and such a fix, the distance is still 0, the path
    still holds the origin alone and the last-known position has not
    moved. *)
Theorem fix_at_threshold_is_dropped :
  let origin := mkCoordinates 0 0 in
  let edge := mkCoordinates (0.9 / (6371 * PI)) 0 in
  distanceBetween origin edge = 0.005
  /\ ~ distanceBetween origin edge < 0.005
  /\ exists s',
       run [ClickStart; PositionFix edge]
         (mount true (Some origin) (mkLocalStorage None false)) = Normal s'
       /\ distanceKm (runMetrics s') = 0
       /\ path (runMetrics s') = [origin]
       /\ lastLocationRef s' = Some origin.
Proof.
  intros origin edge. pose proof PI_RGT_0 as Hpi.
  assert (Hd : distanceBetween origin edge = 0.005).
  { unfold distanceBetween, origin, edge. cbn [latitude longitude].
    rewrite calculateDistance_meridian.
    - unfold earthRadiusKm, toRad.
      replace ((0.9 / (6371 * PI) - 0) * PI) with (0.9 / 6371) by (field; lra).
      lra.
    - assert (H : 0 < 0.9 / (6371 * PI)) by (apply Rdiv_lt_0_compat; lra).
      assert (H' : 0.9 / (6371 * PI) <= 180).
      { pose proof PI2_1 as Hpi2.
        apply Rmult_le_reg_r with (r := 6371 * PI); [lra |].
        replace (0.9 / (6371 * PI) * (6371 * PI)) with 0.9 by (field; lra).
        lra. }
      lra. }
  split; [exact Hd |]. split; [lra |].
  eexists. split.
  - rewrite run_cons. explicit_state.
    rewrite run_cons. cbn [dispatch watchIdRef bind run]. reflexivity.
  - match goal with
    | |- context [onPosition edge ?s] =>
        destruct (onPosition_discard s origin edge eq_refl) as [Hm Hl];
          [fold origin; unfold noiseThresholdKm; lra |]
    end.
    rewrite Hm, Hl. repeat split; reflexivity.
Qed.

(** C5.  From any state the component can reach, any run of events
    returns, and leaves a path in which no two neighbours are closer than
    the noise threshold.  Over a run without a start, the distance never
    decreases and the path only grows at its end.  (A start opens a new
    session: it resets the distance to zero and the path to its seed.) *)
Theorem tracker_invariant (es : list Event) (s : State) :
  reachable s ->
  exists s',
    run es s = Normal s'
    /\ spaced (path (runMetrics s'))
    /\ (~ In ClickStart es ->
        distanceKm (runMetrics s) <= distanceKm (runMetrics s')
        /\ extends (path (runMetrics s')) (path (runMetrics s))).
Proof.
  intros Hs.
  destruct (run_reachable es s Hs) as (s' & Hrun & Hs').
  exists s'. split; [exact Hrun |]. split.
  - apply (reachable_consistent s' Hs').
  - intros Hno.
    apply (run_monotone es s s'); auto using reachable_consistent.
Qed.

Lemma tracker_invariant_witness :
  let origin := mkCoordinates 0 0 in
  let started :=
    mkState None true (mkRunMetrics 0 0 "--:--" [origin] true) true true
      (Some origin) (Some origin) true (mkLocalStorage None false) in
  exists s',
    run [PositionFix (mkCoordinates 1 0); TimerTick; PositionFix origin]
      started = Normal s'
    /\ spaced (path (runMetrics s'))
    /\ 0 <= distanceKm (runMetrics s')
    /\ extends (path (runMetrics s')) [origin].
Proof.
  intros origin started.
  destruct (tracker_invariant
              [PositionFix (mkCoordinates 1 0); TimerTick; PositionFix origin]
              started) as (s' & Hrun & Hsp & Hmono).
  - apply (reachable_step
             (mount true (Some origin) (mkLocalStorage None false))
             ClickStart).
    + apply reachable_mount.
    + reflexivity.
  - exists s'. split; [exact Hrun |]. split; [exact Hsp |].
    apply Hmono. cbn. intros [H | [H | [H | []]]]; discriminate.
Defined.

(** C4.  The entry written when a one-second session is stopped carries
    the metrics as they stood while tracking: its [isTracking] flag is
    [true], although the component itself is idle after the stop. *)
Theorem persisted_snapshot_still_tracking :
  exists s',
    run [ClickStart; TimerTick; ClickStop 1700000000000 1700000000000]
      (mount true None (mkLocalStorage None false)) = Normal s'
    /\ stateIsTracking s' = false
    /\ persisted (localStorage s')
       = [mkRunHistoryEntry "1700000000000" 1700000000000 "Corrida Livre"
            (mkRunMetrics 0 1 "--:--" [] true)].
Proof.
  eexists. split.
  - do 2 (rewrite run_cons; explicit_state).
    rewrite run_cons. cbn [dispatch].
    rewrite stop_saves;
      [| reflexivity
       | unfold emptySession; cbn; intros [_ H]; discriminate
       | reflexivity].
    cbn [bind run]. reflexivity.
  - split; reflexivity.
Qed.

(** C3 fails as stated: a one-second session stopped over a store whose
    text does not parse adds no entry. *)
Lemma stop_over_corrupt_store_adds_nothing :
  let corrupt := mkLocalStorage (Some (Corrupt "{")) false in
  exists s',
    run [ClickStart; TimerTick; ClickStop 1700000000000 1700000000000]
      (mount true None corrupt) = Normal s'
    /\ elapsedTimeSeconds (runMetrics s') = 1%Z
    /\ localStorage s' = corrupt
    /\ ~ exists e, persisted (localStorage s') = persisted corrupt ++ [e].
Proof.
  intros corrupt. eexists. split.
  - do 2 (rewrite run_cons; explicit_state).
    rewrite run_cons. cbn [dispatch].
    rewrite stop_keeps_store by (right; right; reflexivity).
    cbn [bind run]. reflexivity.
  - repeat split. intros [e He]. discriminate He.
Qed.

(** C3, amended.  A stop while idle, and a stop of a session with zero
    distance and zero elapsed time, leave the store as it was.  A stop of
    a tracking session with some distance or some elapsed time adds
    exactly one entry, built from the metrics at that moment, provided
    the stored text parses (or is missing or empty) and the store accepts
    the write. *)
Theorem stop_persists_one_entry (s : State) (now today : Z) :
  (stateIsTracking s = false \/ emptySession (runMetrics s) ->
   exists s',
     stopTracking now today s = Normal s'
     /\ localStorage s' = localStorage s)
  /\ (stateIsTracking s = true ->
      ~ emptySession (runMetrics s) ->
      storageFails (localStorage s) = false ->
      exists s',
        stopTracking now today s = Normal s'
        /\ persisted (localStorage s')
           = persisted (localStorage s) ++ [entryOf now today s]
        /\ metrics (entryOf now today s) = runMetrics s).
Proof.
  split.
  - intros Hwhy. eexists. split.
    + apply stop_keeps_store. tauto.
    + reflexivity.
  - intros Htr Hne Hok. eexists. split.
    + now apply stop_saves.
    + split; reflexivity.
Qed.

Lemma stop_persists_one_entry_witness :
  let ticked :=
    mkState None true (mkRunMetrics 0 1 "--:--" [] true) true true
      None None true (mkLocalStorage None false) in
  (exists s',
     stopTracking 1700000000000 1700000000000
       (mount true None (mkLocalStorage None false)) = Normal s'
     /\ localStorage s' = mkLocalStorage None false)
  /\ (exists s',
        stopTracking 1700000000000 1700000000000 ticked = Normal s'
        /\ persisted (localStorage s')
           = [] ++ [entryOf 1700000000000 1700000000000 ticked]
        /\ metrics (entryOf 1700000000000 1700000000000 ticked)
           = mkRunMetrics 0 1 "--:--" [] true).
Proof.
  intros ticked. split.
  - apply (proj1 (stop_persists_one_entry
                    (mount true None (mkLocalStorage None false))
                    1700000000000 1700000000000)).
    left. reflexivity.
  - apply (proj2 (stop_persists_one_entry ticked
                    1700000000000 1700000000000)).
    + reflexivity.
    + unfold emptySession. cbn. intros [_ H]. discriminate.
    + reflexivity.
Defined.

(** C7.  Neither [saveRunToHistory] nor [stopTracking] ever throws.
    When the stored text does not parse or the store refuses the write,
    the save returns with nothing changed, and after the stop the store
    is what it was: the new entry is not persisted. *)
Theorem storage_errors_are_contained (s : State) (now today : Z) :
  (exists s1, saveRunToHistory now today s = Normal s1)
  /\ (storageFails (localStorage s) = true ->
      saveRunToHistory now today s = Normal s)
  /\ (exists s',
        stopTracking now today s = Normal s'
        /\ (storageFails (localStorage s) = true ->
            localStorage s' = localStorage s
            /\ persisted (localStorage s') = persisted (localStorage s))).
Proof.
  split; [| split].
  - destruct (save_cases now today s) as [[_ ->] | [_ ->]]; eexists; reflexivity.
  - intros Hbad.
    destruct (save_cases now today s) as [[_ H] | [[_ Hok] _]];
      [exact H | congruence].
  - destruct (stop_cases now today s)
      as (s' & Hstop & _ & _ & _ & _ & _ & _ & Hstore).
    exists s'. split; [exact Hstop |].
    intros Hbad.
    destruct Hstore as [[Hls _] | [_ (_ & _ & Hok)]]; [| congruence].
    now rewrite Hls.
Qed.

Lemma storage_errors_are_contained_witness :
  let corrupt := mkLocalStorage (Some (Corrupt "{")) false in
  let full := mkLocalStorage (Some (Serialized [])) true in
  let ticked ls :=
    mkState None true (mkRunMetrics 0 1 "--:--" [] true) true true
      None None true ls in
  saveRunToHistory 1700000000000 1700000000000 (ticked corrupt)
    = Normal (ticked corrupt)
  /\ exists s',
       stopTracking 1700000000000 1700000000000 (ticked full) = Normal s'
       /\ localStorage s' = full
       /\ persisted (localStorage s') = [].
Proof.
  intros corrupt full ticked. split.
  - apply (proj1 (proj2 (storage_errors_are_contained (ticked corrupt)
                           1700000000000 1700000000000))).
    reflexivity.
  - destruct (proj2 (proj2 (storage_errors_are_contained (ticked full)
                              1700000000000 1700000000000)))
      as (s' & Hstop & Hkeep).
    exists s'. split; [exact Hstop |]. apply Hkeep. reflexivity.
Defined.

(** C10 fails as stated: two sessions stopped while the clock reads the
    same millisecond leave two different entries with one id. *)
Lemma same_clock_reading_same_id :
  exists s' e1 e2,
    run [ClickStart; TimerTick; ClickStop 1700000000000 1700000000000;
         ClickStart; TimerTick; TimerTick;
         ClickStop 1700000000000 1700000000000]
      (mount true None (mkLocalStorage None false)) = Normal s'
    /\ persisted (localStorage s') = [e1; e2]
    /\ e1 <> e2
    /\ id e1 = id e2.
Proof.
  eexists. eexists. eexists. split.
  - do 2 (rewrite run_cons; explicit_state).
    rewrite run_cons. cbn [dispatch].
    rewrite stop_saves;
      [| reflexivity
       | unfold emptySession; cbn; intros [_ H]; discriminate
       | reflexivity].
    cbn [bind]. explicit_state.
    do 3 (rewrite run_cons; explicit_state).
    rewrite run_cons. cbn [dispatch].
    rewrite stop_saves;
      [| reflexivity
       | unfold emptySession; cbn; intros [_ H]; discriminate
       | reflexivity].
    cbn [bind run]. explicit_state. reflexivity.
  - split; [reflexivity |]. split; [| reflexivity].
    intros H. discriminate H.
Qed.

(** C10, amended.  The id of a saved entry is the decimal text of the
    clock reading at the save, so two saves made at different clock
    readings give their entries different ids. *)
Theorem ids_differ_with_the_clock
  (s1 s1' s2 s2' : State) (now1 today1 now2 today2 : Z)
  (e1 e2 : RunHistoryEntry) :
  stopTracking now1 today1 s1 = Normal s1' ->
  persisted (localStorage s1') = persisted (localStorage s1) ++ [e1] ->
  stopTracking now2 today2 s2 = Normal s2' ->
  persisted (localStorage s2') = persisted (localStorage s2) ++ [e2] ->
  now1 <> now2 ->
  id e1 = toString now1 /\ id e2 = toString now2 /\ id e1 <> id e2.
Proof.
  intros Hstop1 Hnew1 Hstop2 Hnew2 Hclock.
  rewrite (stop_new_entry now1 today1 s1 s1' e1 Hstop1 Hnew1).
  rewrite (stop_new_entry now2 today2 s2 s2' e2 Hstop2 Hnew2).
  cbn [entryOf id]. repeat split.
  intros Hid. apply Hclock. now apply toString_inj.
Qed.

Lemma ids_differ_with_the_clock_witness :
  let ticked :=
    mkState None true (mkRunMetrics 0 1 "--:--" [] true) true true
      None None true (mkLocalStorage None false) in
  let e1 := entryOf 1700000000000 1700000000000 ticked in
  let e2 := entryOf 1700000000001 1700000000001 ticked in
  id e1 = "1700000000000"%string /\ id e2 = "1700000000001"%string
  /\ id e1 <> id e2.
Proof.
  intros ticked e1 e2.
  assert (Hne : ~ emptySession (runMetrics ticked)).
  { unfold emptySession. cbn. intros [_ H]. discriminate. }
  apply (ids_differ_with_the_clock ticked _ ticked _
           1700000000000 1700000000000 1700000000001 1700000000001 e1 e2
           (stop_saves _ _ ticked eq_refl Hne eq_refl) eq_refl
           (stop_saves _ _ ticked eq_refl Hne eq_refl) eq_refl).
  discriminate.
Defined.

(** * Further properties *)

(** ** Sorting with a comparator *)

Module SortFacts.
Import JSArray.

Section Sort.

Context {A : Type}.
Variable nonpositive : A -> A -> bool.

Lemma insert_permutation (x : A) (l : list A) :
  Permutation (x :: l) (insert nonpositive x l).
Proof.
  induction l as [| y l IH]; cbn [insert]; [reflexivity |].
  destruct (nonpositive x y); [reflexivity |].
  rewrite perm_swap. now apply perm_skip.
Qed.

Lemma sort_permutation (l : list A) : Permutation l (sort nonpositive l).
Proof.
  induction l as [| x l IH]; cbn [sort]; [constructor |].
  rewrite <- insert_permutation. now apply perm_skip.
Qed.

(** Stability: elements that the comparator ties with one another keep
    their order. *)
Lemma insert_keeps_ties (sel : A -> bool) (x : A) (l : list A) :
  (forall a b, sel a = true -> sel b = true -> nonpositive a b = true) ->
  filter sel (insert nonpositive x l) = filter sel (x :: l).
Proof.
  intros Hsel.
  induction l as [| y l IH]; cbn [insert]; [reflexivity |].
  destruct (nonpositive x y) eqn:Hxy; [reflexivity |].
  cbn [filter] in *. rewrite IH.
  destruct (sel x) eqn:Hx; [| reflexivity].
  destruct (sel y) eqn:Hy; [| reflexivity].
  rewrite (Hsel x y Hx Hy) in Hxy. discriminate.
Qed.

Lemma sort_keeps_ties (sel : A -> bool) (l : list A) :
  (forall a b, sel a = true -> sel b = true -> nonpositive a b = true) ->
  filter sel (sort nonpositive l) = filter sel l.
Proof.
  intros Hsel.
  induction l as [| x l IH]; cbn [sort]; [reflexivity |].
  rewrite insert_keeps_ties by exact Hsel. cbn [filter]. now rewrite IH.
Qed.

(** The comparator decides a total preorder [le]. *)
Variable le : A -> A -> Prop.
Hypothesis nonpositive_le : forall a b, nonpositive a b = true <-> le a b.
Hypothesis le_total : forall a b, le a b \/ le b a.
Hypothesis le_trans : forall a b c, le a b -> le b c -> le a c.

Lemma insert_sorted (x : A) (l : list A) :
  StronglySorted le l -> StronglySorted le (insert nonpositive x l).
Proof.
  induction l as [| y l IH]; intros Hl; cbn [insert].
  - repeat constructor.
  - destruct (nonpositive x y) eqn:Hxy.
    + apply nonpositive_le in Hxy.
      constructor; [exact Hl |].
      constructor; [exact Hxy |].
      apply StronglySorted_inv in Hl as [_ Hy].
      eapply Forall_impl; [| exact Hy]. intros z Hz. now apply (le_trans x y z).
    + assert (Hyx : le y x).
      { destruct (le_total x y) as [H | H]; [| exact H].
        apply nonpositive_le in H. congruence. }
      apply StronglySorted_inv in Hl as [Hl Hy].
      constructor; [now apply IH |].
      rewrite <- insert_permutation. now constructor.
Qed.

Lemma sort_sorted (l : list A) : StronglySorted le (sort nonpositive l).
Proof.
  induction l as [| x l IH]; cbn [sort].
  - constructor.
  - now apply insert_sorted.
Qed.

End Sort.

End SortFacts.

(** ** The place list *)

Module PlaceListFacts.
Import JSArray PlaceList SortFacts.

Section WithLowerCase.

Variable toLowerCase : string -> string.

Lemma getDifficultyScore_range (d : string) :
  (1 <= getDifficultyScore toLowerCase d <= 3)%Z.
Proof.
  unfold getDifficultyScore.
  repeat match goal with |- context [if ?b then _ else _] => destruct b end;
    lia.
Qed.

Lemma byDifficulty_le (a b : PlaceDetails) :
  (byDifficulty toLowerCase a b <=? 0)%Z = true
  <-> (getDifficultyScore toLowerCase (difficulty a)
       <= getDifficultyScore toLowerCase (difficulty b))%Z.
Proof. unfold byDifficulty. rewrite Z.leb_le. lia. Qed.

Lemma byPopularity_le (a b : PlaceDetails) :
  (byPopularity a b <=? 0)%Z = true
  <-> (getPopularityScore b <= getPopularityScore a)%Z.
Proof. unfold byPopularity. rewrite Z.leb_le. lia. Qed.

Lemma byDistance_le (user : Coordinates) (a b : PlaceDetails) :
  (if Rle_dec (byDistance user a b) 0 then true else false) = true
  <-> distanceFrom user a <= distanceFrom user b.
Proof.
  unfold byDistance. destruct (Rle_dec _ 0); split; intros H;
    try reflexivity; try discriminate; lra.
Qed.

End WithLowerCase.

End PlaceListFacts.

Import JSArray PlaceList SortFacts PlaceListFacts.

(** X1.  Whatever the sort option and whether or not the user position
    is known, the list shown holds exactly the places of the response:
    none is dropped, none is repeated.  Without places the list is
    empty; with the default option, and with the distance option while
    the user position is unknown, the order is that of the response. *)
Theorem sortedPlaces_keeps_places (toLowerCase : string -> string)
  (ps : list PlaceDetails) (sortBy : SortOption)
  (userCoordinates : option Coordinates) :
  Permutation ps (sortedPlaces toLowerCase (Some ps) sortBy userCoordinates)
  /\ sortedPlaces toLowerCase None sortBy userCoordinates = []
  /\ sortedPlaces toLowerCase (Some ps) SortDefault userCoordinates = ps
  /\ sortedPlaces toLowerCase (Some ps) SortDistance None = ps.
Proof.
  split; [| repeat split].
  destruct sortBy; cbn [sortedPlaces]; try reflexivity;
    try apply sort_permutation.
  destruct userCoordinates; [apply sort_permutation | reflexivity].
Qed.

(** X2.  Sorted by difficulty, the places come easiest first (score 1,
    then 2, then 3), and places of one score keep the order they had in
    the response. *)
Theorem sortedPlaces_by_difficulty (toLowerCase : string -> string)
  (ps : list PlaceDetails) (userCoordinates : option Coordinates) :
  let score p := getDifficultyScore toLowerCase (difficulty p) in
  let shown :=
    sortedPlaces toLowerCase (Some ps) SortDifficulty userCoordinates in
  StronglySorted (fun a b => (score a <= score b)%Z) shown
  /\ (forall k, filter (fun p => (score p =? k)%Z) shown
                = filter (fun p => (score p =? k)%Z) ps)
  /\ Forall (fun p => (1 <= score p <= 3)%Z) shown.
Proof.
  intros score shown. subst shown. cbn [sortedPlaces].
  split; [| split].
  - apply sort_sorted.
    + intros a b. apply byDifficulty_le.
    + intros a b. lia.
    + intros a b c. lia.
  - intros k. apply sort_keeps_ties.
    intros a b Ha Hb. apply Z.eqb_eq in Ha, Hb.
    apply byDifficulty_le. fold (score a) (score b). lia.
  - apply Forall_forall. intros p _. unfold score.
    apply (getDifficultyScore_range toLowerCase).
Qed.

(** X3.  Sorted by popularity, the places come by falling number of
    visits of their leader (a place without leaderboard counting as 0),
    and places with the same number keep the order of the response. *)
Theorem sortedPlaces_by_popularity (toLowerCase : string -> string)
  (ps : list PlaceDetails) (userCoordinates : option Coordinates) :
  let shown :=
    sortedPlaces toLowerCase (Some ps) SortPopularity userCoordinates in
  StronglySorted
    (fun a b => (getPopularityScore b <= getPopularityScore a)%Z) shown
  /\ (forall k, filter (fun p => (getPopularityScore p =? k)%Z) shown
                = filter (fun p => (getPopularityScore p =? k)%Z) ps).
Proof.
  intros shown. subst shown. cbn [sortedPlaces].
  split.
  - apply sort_sorted.
    + intros a b. apply byPopularity_le.
    + intros a b. lia.
    + intros a b c. lia.
  - intros k. apply sort_keeps_ties.
    intros a b Ha Hb. apply Z.eqb_eq in Ha, Hb.
    apply byPopularity_le. lia.
Qed.

(** X4.  Sorted by distance with the user position known, the places
    come nearest first, and places at the same distance keep the order
    of the response. *)
Theorem sortedPlaces_by_distance (toLowerCase : string -> string)
  (ps : list PlaceDetails) (user : Coordinates) :
  let shown := sortedPlaces toLowerCase (Some ps) SortDistance (Some user) in
  StronglySorted
    (fun a b => distanceFrom user a <= distanceFrom user b) shown
  /\ (forall d : R,
        filter (fun p => if Req_dec_T (distanceFrom user p) d
                         then true else false) shown
        = filter (fun p => if Req_dec_T (distanceFrom user p) d
                           then true else false) ps).
Proof.
  intros shown. subst shown. cbn [sortedPlaces].
  split.
  - apply sort_sorted.
    + intros a b. apply byDistance_le.
    + intros a b. lra.
    + intros a b c. lra.
  - intros d. apply sort_keeps_ties.
    intros a b Ha Hb.
    destruct (Req_dec_T (distanceFrom user a) d); [| discriminate].
    destruct (Req_dec_T (distanceFrom user b) d); [| discriminate].
    apply byDistance_le. lra.
Qed.

(** ** Sessions *)

Module SessionFacts.
Import GeoUtils ResultDisplay Session TrackerFacts.

(** *** The subscriptions follow the tracking flag *)

Lemma in_step_dispatch (e : Event) (s s' : State) :
  in_step s -> dispatch e s = Normal s' -> in_step s'.
Proof.
  intros Hs Hd. destruct e; cbn [dispatch] in Hd.
  - injection Hd as <-.
    destruct (stateIsTracking s) eqn:Htr; [exact Hs |].
    unfold startTracking. destruct (geolocation s) eqn:Hgeo; cbn [negb].
    + repeat split; cbn; auto.
    + exact Hs.
  - destruct (stop_cases now today s)
      as (s1 & H1 & _ & _ & Htr & Hw1 & Ht1 & _).
    rewrite H1 in Hd. injection Hd as <-.
    unfold in_step. rewrite Htr, Hw1, Ht1. repeat split. discriminate.
  - injection Hd as <-.
    destruct (timerIntervalRef s); exact Hs.
  - injection Hd as <-.
    destruct (watchIdRef s) eqn:Hwatch; [| exact Hs].
    destruct (onPosition_frame s c) as (Hst & Hw' & Ht' & Hg' & _).
    unfold in_step. rewrite Hst, Hw', Ht', Hg'. exact Hs.
  - injection Hd as <-.
    destruct (watchIdRef s); exact Hs.
  - injection Hd as <-. exact Hs.
  - injection Hd as <-. exact Hs.
  - injection Hd as <-. repeat split; cbn; auto. discriminate.
Qed.

Lemma reachable_in_step (s : State) : reachable s -> in_step s.
Proof.
  induction 1 as [geo uc ls | s e s' _ IH Hd].
  - repeat split. cbn. discriminate.
  - eapply in_step_dispatch; eassumption.
Qed.

(** *** The distance is the length of the path *)

Lemma pathLength_snoc (p : list Coordinates) (last c : Coordinates) :
  lastPoint p = Some last ->
  pathLength (p ++ [c]) = pathLength p + distanceBetween last c.
Proof.
  induction p as [| a p IH]; intros Hlast; [discriminate |].
  destruct p as [| b p].
  - injection Hlast as ->. change ([last] ++ [c]) with [last; c].
    cbn [pathLength]. lra.
  - specialize (IH Hlast). rewrite <- !app_comm_cons in *.
    change (distanceBetween a b + pathLength (b :: p ++ [c])
            = distanceBetween a b + pathLength (b :: p)
              + distanceBetween last c).
    rewrite IH. lra.
Qed.

Lemma measured_dispatch (e : Event) (s s' : State) :
  consistent s -> measured s -> dispatch e s = Normal s' -> measured s'.
Proof.
  intros (Hlast & _ & _) Hm Hd. unfold measured in *.
  destruct e; cbn [dispatch] in Hd.
  - injection Hd as <-.
    destruct (stateIsTracking s); [exact Hm |].
    unfold startTracking. destruct (geolocation s); cbn [negb]; [| exact Hm].
    cbn. destruct (userCoordinates s); reflexivity.
  - destruct (stop_cases now today s) as (s1 & H1 & Hrm & _).
    rewrite H1 in Hd. injection Hd as <-. now rewrite Hrm.
  - injection Hd as <-.
    destruct (timerIntervalRef s); exact Hm.
  - injection Hd as <-.
    destruct (watchIdRef s); [| exact Hm].
    destruct (lastLocationRef s) as [last |] eqn:Hl.
    + destruct (Rgt_dec (distanceBetween last c) noiseThresholdKm)
        as [Hfar | Hnear].
      * destruct (onPosition_accept s last c Hl Hfar) as [-> _].
        cbn [distanceKm path].
        rewrite (pathLength_snoc _ last c) by (now symmetry). lra.
      * assert (Hle : distanceBetween last c <= noiseThresholdKm).
        { unfold Rgt in Hnear. lra. }
        destruct (onPosition_discard s last c Hl Hle) as [-> _]. exact Hm.
    + destruct (onPosition_first s c Hl) as [-> _].
      symmetry in Hlast. apply lastPoint_none in Hlast.
      rewrite Hlast in Hm. cbn in *. exact Hm.
  - injection Hd as <-. destruct (watchIdRef s); exact Hm.
  - injection Hd as <-. exact Hm.
  - injection Hd as <-. exact Hm.
  - injection Hd as <-. exact Hm.
Qed.

Lemma reachable_measured (s : State) : reachable s -> measured s.
Proof.
  induction 1 as [geo uc ls | s e s' Hs IH Hd].
  - reflexivity.
  - eapply measured_dispatch; eauto using reachable_consistent.
Qed.

(** *** What a position fix leaves alone *)

Lemma onPosition_elapsed (s : State) (c : Coordinates) :
  elapsedTimeSeconds (runMetrics (onPosition c s))
  = elapsedTimeSeconds (runMetrics s).
Proof.
  destruct (lastLocationRef s) as [last |] eqn:Hl.
  - destruct (Rgt_dec (distanceBetween last c) noiseThresholdKm)
      as [Hfar | Hnear].
    + now destruct (onPosition_accept s last c Hl Hfar) as [-> _].
    + assert (Hle : distanceBetween last c <= noiseThresholdKm).
      { unfold Rgt in Hnear. lra. }
      now destruct (onPosition_discard s last c Hl Hle) as [-> _].
  - now destruct (onPosition_first s c Hl) as [-> _].
Qed.

(** *** One event of a session *)

Lemma session_step (e : Event) (s : State) :
  reachable s -> stateIsTracking s = true -> endsSession e = false ->
  exists s',
    dispatch e s = Normal s'
    /\ stateIsTracking s' = true
    /\ elapsedTimeSeconds (runMetrics s')
       = (elapsedTimeSeconds (runMetrics s)
          + (if isTick e then 1 else 0))%Z.
Proof.
  intros Hs Htr He.
  destruct (reachable_in_step s Hs) as (Hw & Ht & _).
  rewrite Htr in Hw, Ht.
  destruct e; cbn [dispatch isTick]; try discriminate He;
    rewrite ?Htr, ?Hw, ?Ht; eexists; (split; [reflexivity |]).
  - split; [exact Htr | lia].
  - split; [exact Htr | reflexivity].
  - destruct (onPosition_frame s c) as (Hst & _).
    rewrite Hst, onPosition_elapsed. split; [exact Htr | lia].
  - split; [exact Htr | unfold onPositionError; lia].
  - split; [exact Htr | cbn [setSelectedPlace runMetrics]; lia].
  - split; [exact Htr | cbn [onUpdateCoordinates runMetrics]; lia].
Qed.

Lemma session_elapsed (es : list Event) (s : State) :
  reachable s -> stateIsTracking s = true ->
  forallb (fun e => negb (endsSession e)) es = true ->
  exists s',
    run es s = Normal s'
    /\ reachable s'
    /\ stateIsTracking s' = true
    /\ elapsedTimeSeconds (runMetrics s')
       = (elapsedTimeSeconds (runMetrics s) + Z.of_nat (ticks es))%Z.
Proof.
  revert s. induction es as [| e es IH]; intros s Hs Htr Hes.
  - exists s. repeat split; auto. cbn. lia.
  - cbn [forallb] in Hes. apply andb_true_iff in Hes as [He Hes].
    apply negb_true_iff in He.
    destruct (session_step e s Hs Htr He) as (s1 & H1 & Htr1 & Hel1).
    destruct (IH s1 (reachable_step s e s1 Hs H1) Htr1 Hes)
      as (s' & Hrun & Hs' & Htr' & Hel').
    exists s'. rewrite run_cons, H1. cbn [bind].
    repeat split; auto.
    rewrite Hel', Hel1. unfold ticks. cbn [filter].
    destruct (isTick e); cbn [List.length]; lia.
Qed.

(** *** Once idle, the subscriptions are silent *)

Lemma idle_step (e : Event) (s : State) :
  reachable s -> stateIsTracking s = false -> fromSubscription e = true ->
  dispatch e s = Normal s.
Proof.
  intros Hs Hidle He.
  destruct (reachable_in_step s Hs) as (Hw & Ht & _).
  rewrite Hidle in Hw, Ht.
  destruct e; try discriminate He; cbn [dispatch];
    rewrite ?Hw, ?Ht; reflexivity.
Qed.

(** *** The store *)

Lemma dispatch_store (e : Event) (s s' : State) :
  dispatch e s = Normal s' ->
  exists added,
    persisted (localStorage s') = persisted (localStorage s) ++ added
    /\ (List.length added <= if isStop e then 1 else 0)%nat.
Proof.
  intros Hd.
  assert (Hkeep : localStorage s' = localStorage s ->
            exists added,
              persisted (localStorage s')
              = persisted (localStorage s) ++ added
              /\ (List.length added <= if isStop e then 1 else 0)%nat).
  { intros ->. exists []. rewrite app_nil_r. split; [reflexivity |].
    cbn. lia. }
  destruct e; cbn [dispatch] in Hd.
  - injection Hd as <-. apply Hkeep.
    destruct (stateIsTracking s); [reflexivity |].
    unfold startTracking. now destruct (geolocation s).
  - destruct (stop_cases now today s)
      as (s1 & H1 & _ & _ & _ & _ & _ & _ & [[Hls _] | [Hls _]]);
      rewrite H1 in Hd; injection Hd as <-.
    + apply Hkeep. exact Hls.
    + exists [entryOf now today s]. rewrite Hls. split; [reflexivity |].
      cbn. lia.
  - injection Hd as <-. apply Hkeep. now destruct (timerIntervalRef s).
  - injection Hd as <-. apply Hkeep.
    destruct (watchIdRef s); [| reflexivity].
    now destruct (onPosition_frame s c) as (_ & _ & _ & _ & Hls & _).
  - injection Hd as <-. apply Hkeep. now destruct (watchIdRef s).
  - injection Hd as <-. now apply Hkeep.
  - injection Hd as <-. now apply Hkeep.
  - injection Hd as <-. now apply Hkeep.
Qed.


End SessionFacts.

(** ** Saving, then loading *)

Module RoundTripFacts.
Import ResultDisplay RunHistory TrackerFacts HistoryFacts SortFacts.

(** [RunHistory.sort] is the stable sort by its comparator. *)
Lemma sort_as_array_sort (l : list RunHistoryEntry) :
  RunHistory.sort l
  = JSArray.sort (fun a b => (compareFn a b <=? 0)%Z) l.
Proof.
  induction l as [| x l IH]; [reflexivity |].
  cbn [RunHistory.sort JSArray.sort]. rewrite IH.
  generalize (JSArray.sort (fun a b => (compareFn a b <=? 0)%Z) l).
  intros k. induction k as [| y k IHk]; [reflexivity |].
  cbn [RunHistory.insert JSArray.insert]. now rewrite IHk.
Qed.

(** What is loaded is what is stored, sorted. *)
Lemma loadHistory_persisted (ls : LocalStorage) :
  loadHistory ls = RunHistory.sort (persisted ls).
Proof.
  destruct ls as [[[| raw | h] |] q]; reflexivity.
Qed.

(** An entry strictly newer than all the others sorts to the front. *)
Lemma sort_newest_last (l : list RunHistoryEntry) (e : RunHistoryEntry) :
  Forall (fun x => (date x < date e)%Z) l ->
  RunHistory.sort (l ++ [e]) = e :: RunHistory.sort l.
Proof.
  induction 1 as [| x l Hx _ IH]; [reflexivity |].
  rewrite <- app_comm_cons. cbn [RunHistory.sort]. rewrite IH.
  cbn [RunHistory.insert].
  unfold compareFn at 1.
  destruct (date e - date x <=? 0)%Z eqn:Hc; [| reflexivity].
  apply Z.leb_le in Hc. lia.
Qed.

End RoundTripFacts.

Import Session SessionFacts RoundTripFacts.

(** X5.  In every state the component can reach, the position watch and
    the timer are live exactly when the component says it is tracking:
    they are taken together by a start and released together by a stop
    or an unmount. *)
Theorem subscriptions_follow_tracking (s : State) :
  reachable s ->
  watchIdRef s = stateIsTracking s /\ timerIntervalRef s = stateIsTracking s.
Proof.
  intros Hs. destruct (reachable_in_step s Hs) as (Hw & Ht & _). now split.
Qed.

Lemma subscriptions_follow_tracking_witness :
  let started :=
    mkState None true (mkRunMetrics 0 0 "--:--" [] true) true true
      None None true (mkLocalStorage None false) in
  watchIdRef started = true /\ timerIntervalRef started = true.
Proof.
  intros started.
  apply (subscriptions_follow_tracking started).
  apply (reachable_step (mount true None (mkLocalStorage None false))
           ClickStart).
  - apply reachable_mount.
  - reflexivity.
Defined.

(** X6.  In every state the component can reach, the distance shown is
    the length of the recorded path: the sum of the great-circle
    distances between its consecutive points. *)
Theorem distance_is_path_length (s : State) :
  reachable s ->
  distanceKm (runMetrics s) = pathLength (path (runMetrics s)).
Proof. apply reachable_measured. Qed.

Lemma distance_is_path_length_witness :
  let origin := mkCoordinates 0 0 in
  let started :=
    mkState None true (mkRunMetrics 0 0 "--:--" [origin] true) true true
      (Some origin) (Some origin) true (mkLocalStorage None false) in
  let moved := onPosition (mkCoordinates 1 0) started in
  distanceKm (runMetrics moved) = pathLength (path (runMetrics moved)).
Proof.
  intros origin started moved.
  apply (distance_is_path_length moved).
  apply (reachable_step started (PositionFix (mkCoordinates 1 0))).
  - apply (reachable_step
             (mount true (Some origin) (mkLocalStorage None false))
             ClickStart).
    + apply reachable_mount.
    + reflexivity.
  - reflexivity.
Defined.

(** X7.  During a session the elapsed time counts the timer ticks: from
    a tracking state, after any events that do not end the session, it
    has grown by the number of ticks among them, whatever fixes came in
    between; and a session started from an idle component shows the
    number of ticks since the start. *)
Theorem elapsed_counts_ticks (es : list Event) (s : State) :
  reachable s ->
  forallb (fun e => negb (endsSession e)) es = true ->
  (stateIsTracking s = true ->
   exists s',
     run es s = Normal s'
     /\ stateIsTracking s' = true
     /\ elapsedTimeSeconds (runMetrics s')
        = (elapsedTimeSeconds (runMetrics s) + Z.of_nat (ticks es))%Z)
  /\ (stateIsTracking s = false -> geolocation s = true ->
      exists s',
        run (ClickStart :: es) s = Normal s'
        /\ stateIsTracking s' = true
        /\ elapsedTimeSeconds (runMetrics s') = Z.of_nat (ticks es)).
Proof.
  intros Hs Hes. split.
  - intros Htr.
    destruct (session_elapsed es s Hs Htr Hes) as (s' & Hrun & _ & Htr' & Hel).
    now exists s'.
  - intros Hidle Hgeo.
    assert (Hstart : dispatch ClickStart s = Normal (startTracking s)).
    { cbn [dispatch]. now rewrite Hidle. }
    assert (Htr : stateIsTracking (startTracking s) = true).
    { unfold startTracking. now rewrite Hgeo. }
    assert (Hel0 : elapsedTimeSeconds (runMetrics (startTracking s)) = 0%Z).
    { unfold startTracking. now rewrite Hgeo. }
    destruct (session_elapsed es (startTracking s)
                (reachable_step s ClickStart _ Hs Hstart) Htr Hes)
      as (s' & Hrun & _ & Htr' & Hel).
    exists s'. rewrite run_cons, Hstart. cbn [bind].
    repeat split; auto. rewrite Hel, Hel0. lia.
Qed.

Lemma elapsed_counts_ticks_witness :
  let origin := mkCoordinates 0 0 in
  let es := [TimerTick; PositionFix origin; TimerTick; PositionError;
             TimerTick] in
  exists s',
    run (ClickStart :: es) (mount true None (mkLocalStorage None false))
    = Normal s'
    /\ stateIsTracking s' = true
    /\ elapsedTimeSeconds (runMetrics s') = 3%Z.
Proof.
  intros origin es.
  apply (proj2 (elapsed_counts_ticks es
                  (mount true None (mkLocalStorage None false))
                  (reachable_mount _ _ _) eq_refl));
    reflexivity.
Defined.

(** X8.  A stop or an unmount releases both subscriptions: once the
    component is idle, timer ticks, position fixes and position errors
    leave its state exactly as it is. *)
Theorem idle_subscriptions_silent (es : list Event) (s : State) :
  reachable s ->
  forallb fromSubscription es = true ->
  (stateIsTracking s = false -> run es s = Normal s)
  /\ (forall e, endsSession e = true ->
        exists s', dispatch e s = Normal s'
                   /\ run (e :: es) s = Normal s').
Proof.
  intros Hs Hes.
  assert (Hidle : forall s0, reachable s0 -> stateIsTracking s0 = false ->
                    run es s0 = Normal s0).
  { clear s Hs. induction es as [| e es IH]; intros s0 Hs0 Hidle0.
    - reflexivity.
    - cbn [forallb] in Hes. apply andb_true_iff in Hes as [He Hes].
      rewrite run_cons, (idle_step e s0 Hs0 Hidle0 He). cbn [bind].
      now apply IH. }
  split; [now apply Hidle |].
  intros e He.
  destruct (dispatch_total e s) as (s' & Hd).
  exists s'. split; [exact Hd |].
  rewrite run_cons, Hd. cbn [bind].
  apply Hidle; [eapply reachable_step; eassumption |].
  destruct e; try discriminate He; cbn [dispatch] in Hd.
  - destruct (stop_cases now today s) as (s1 & H1 & _ & _ & Htr & _).
    rewrite H1 in Hd. now injection Hd as <-.
  - now injection Hd as <-.
Qed.

Lemma idle_subscriptions_silent_witness :
  let origin := mkCoordinates 0 0 in
  let started :=
    mkState None true (mkRunMetrics 0 0 "--:--" [origin] true) true true
      (Some origin) (Some origin) true (mkLocalStorage None false) in
  exists s',
    dispatch Unmount started = Normal s'
    /\ run [Unmount; TimerTick; PositionFix (mkCoordinates 1 0); TimerTick]
         started = Normal s'.
Proof.
  intros origin started.
  apply (proj2 (idle_subscriptions_silent
                  [TimerTick; PositionFix (mkCoordinates 1 0); TimerTick]
                  started
                  (reachable_step
                     (mount true (Some origin) (mkLocalStorage None false))
                     ClickStart started (reachable_mount _ _ _) eq_refl)
                  eq_refl)).
  reflexivity.
Defined.

(** X9.  No run of events removes or rewrites a stored entry: the
    entries the store holds afterwards are those it held before, in the
    same order, followed by at most one new entry per stop. *)
Theorem history_only_grows (es : list Event) (s : State) :
  exists s' added,
    run es s = Normal s'
    /\ persisted (localStorage s') = persisted (localStorage s) ++ added
    /\ (List.length added <= List.length (filter isStop es))%nat.
Proof.
  revert s. induction es as [| e es IH]; intros s.
  - exists s, []. rewrite app_nil_r. repeat split. cbn. lia.
  - destruct (dispatch_total e s) as (s1 & H1).
    destruct (dispatch_store e s s1 H1) as (added1 & Ha1 & Hl1).
    destruct (IH s1) as (s' & added & Hrun & Ha & Hl).
    exists s', (added1 ++ added).
    rewrite run_cons, H1. cbn [bind]. split; [exact Hrun |]. split.
    + rewrite Ha, Ha1. now rewrite app_assoc.
    + rewrite length_app. cbn [filter].
      destruct (isStop e); cbn [List.length]; lia.
Qed.

Lemma stop_keeps_props (now today : Z) (s s' : State) :
  stopTracking now today s = Normal s' ->
  userCoordinates s' = userCoordinates s
  /\ selectedPlace s' = selectedPlace s.
Proof.
  intros Hstop.
  destruct (stop_cases now today s)
    as (s1 & _ & _ & _ & _ & _ & _ & _ & [[_ Hwhy] | [_ (Htr & Hne & Hok)]]).
  - rewrite (stop_keeps_store now today s Hwhy) in Hstop.
    injection Hstop as <-. split; reflexivity.
  - rewrite (stop_saves now today s Htr Hne Hok) in Hstop.
    injection Hstop as <-. split; reflexivity.
Qed.

(** X10.  Every fix delivered while tracking becomes the user position,
    whether the noise filter keeps it or drops it; and the session
    started after the next stop begins its path at that fix, with zero
    distance. *)
Theorem fix_reaches_user_position (s : State) (c : Coordinates) :
  reachable s -> stateIsTracking s = true ->
  exists s1,
    dispatch (PositionFix c) s = Normal s1
    /\ userCoordinates s1 = Some c
    /\ forall now today,
         exists s2,
           run [ClickStop now today; ClickStart] s1 = Normal s2
           /\ stateIsTracking s2 = true
           /\ path (runMetrics s2) = [c]
           /\ lastLocationRef s2 = Some c
           /\ distanceKm (runMetrics s2) = 0.
Proof.
  intros Hs Htr.
  destruct (reachable_in_step s Hs) as (Hw & _ & Hg).
  rewrite Htr in Hw.
  exists (onPosition c s). cbn [dispatch]. rewrite Hw.
  destruct (onPosition_frame s c) as (_ & _ & _ & Hgeo & _ & _ & _ & Huc).
  split; [reflexivity |]. split; [exact Huc |].
  intros now today.
  destruct (stop_cases now today (onPosition c s))
    as (s2 & Hstop & _ & _ & Hidle & _ & _ & Hgeo2 & _).
  destruct (stop_keeps_props now today _ _ Hstop) as [Huc2 _].
  exists (startTracking s2).
  rewrite run_cons. cbn [dispatch]. rewrite Hstop. cbn [bind].
  rewrite run_cons. cbn [dispatch run bind]. rewrite Hidle.
  split; [reflexivity |].
  assert (Hgeo2' : geolocation s2 = true).
  { rewrite Hgeo2, Hgeo. now apply Hg. }
  unfold startTracking. rewrite Hgeo2'. cbn. rewrite Huc2, Huc.
  repeat split; reflexivity.
Qed.

Lemma fix_reaches_user_position_witness :
  let origin := mkCoordinates 0 0 in
  let near := mkCoordinates 0.00003 0 in
  let started :=
    mkState None true (mkRunMetrics 0 0 "--:--" [origin] true) true true
      (Some origin) (Some origin) true (mkLocalStorage None false) in
  exists s1,
    dispatch (PositionFix near) started = Normal s1
    /\ userCoordinates s1 = Some near.
Proof.
  intros origin near started.
  destruct (fix_reaches_user_position started near) as (s1 & Hd & Huc & _).
  - apply (reachable_step
             (mount true (Some origin) (mkLocalStorage None false))
             ClickStart).
    + apply reachable_mount.
    + reflexivity.
  - reflexivity.
  - now exists s1.
Defined.



(** X12.  A run that is saved is there when the history is loaded: after
    a stop that saves, the loaded history is the one loaded before plus
    the new entry; and when every stored entry is older than the new
    one, the new entry comes first and the others follow as before. *)
Theorem saved_run_is_loaded (now today : Z) (s : State) :
  stateIsTracking s = true ->
  ~ emptySession (runMetrics s) ->
  storageFails (localStorage s) = false ->
  exists s',
    stopTracking now today s = Normal s'
    /\ Permutation (entryOf now today s :: loadHistory (localStorage s))
         (loadHistory (localStorage s'))
    /\ (Forall (fun x => (date x < today)%Z) (persisted (localStorage s)) ->
        loadHistory (localStorage s')
        = entryOf now today s :: loadHistory (localStorage s)).
Proof.
  intros Htr Hne Hok.
  eexists. split; [now apply stop_saves |].
  rewrite !loadHistory_persisted.
  cbn [localStorage setIsTracking setLocalStorage persisted runHistory].
  fold (persisted (localStorage s)).
  split.
  - rewrite <- (sort_perm (persisted (localStorage s) ++ _)).
    rewrite <- (sort_perm (persisted (localStorage s))).
    apply Permutation_cons_append.
  - intros Hold. now apply sort_newest_last.
Qed.

Lemma saved_run_is_loaded_witness :
  let older :=
    mkRunHistoryEntry "1600000000000" 1600000000000 "Corrida Livre"
      (mkRunMetrics 0 7 "--:--" [] true) in
  let ticked :=
    mkState None true (mkRunMetrics 0 1 "--:--" [] true) true true
      None None true (mkLocalStorage (Some (Serialized [older])) false) in
  exists s',
    stopTracking 1700000000000 1700000000000 ticked = Normal s'
    /\ loadHistory (localStorage s')
       = [entryOf 1700000000000 1700000000000 ticked; older].
Proof.
  intros older ticked.
  destruct (saved_run_is_loaded 1700000000000 1700000000000 ticked)
    as (s' & Hstop & _ & Hfirst).
  - reflexivity.
  - unfold emptySession. cbn. intros [_ H]. discriminate.
  - reflexivity.
  - exists s'. split; [exact Hstop |].
    apply Hfirst. repeat constructor.
Defined.

(** X13.  Loading keeps the stored order among entries of one date:
    sorting newest first never swaps two entries whose dates are equal. *)
Theorem loadHistory_keeps_ties (ls : LocalStorage) (d : Z) :
  filter (fun x => (date x =? d)%Z) (loadHistory ls)
  = filter (fun x => (date x =? d)%Z) (persisted ls).
Proof.
  rewrite loadHistory_persisted, sort_as_array_sort.
  apply sort_keeps_ties.
  intros a b Ha Hb. apply Z.eqb_eq in Ha, Hb.
  unfold compareFn. apply Z.leb_le. lia.
Qed.

(** ** The route service *)

Module GeminiFacts.
Import GeminiService PaceFacts.

(** *** Random draws *)

Lemma floor_draw (r : R) (n : Z) :
  unitDraw r -> (0 < n)%Z -> (0 <= floor (r * IZR n) < n)%Z.
Proof.
  intros [Hlo Hhi] Hn. unfold floor.
  pose proof (Int_part_bounds (r * IZR n)) as Hb.
  assert (Hn' : 0 < IZR n) by (now apply IZR_lt).
  assert (Hprod : 0 <= r * IZR n < IZR n) by (split; nra).
  split.
  - assert (H : IZR (-1) < IZR (Int_part (r * IZR n))) by lra.
    apply lt_IZR in H. lia.
  - assert (H : IZR (Int_part (r * IZR n)) < IZR n) by lra.
    now apply lt_IZR in H.
Qed.

Lemma floor_half (v : Z) : floor (IZR v / 2) = (v / 2)%Z.
Proof.
  unfold floor. symmetry. apply Int_part_spec.
  assert (Hdiv : (2 * (v / 2) <= v < 2 * (v / 2) + 2)%Z).
  { pose proof (Z.mul_div_le v 2 ltac:(lia)).
    pose proof (Z.mul_succ_div_gt v 2 ltac:(lia)). lia. }
  destruct Hdiv as [Hlo Hhi].
  apply IZR_le in Hlo. apply IZR_lt in Hhi.
  rewrite mult_IZR in Hlo. rewrite plus_IZR, mult_IZR in Hhi.
  split; lra.
Qed.

Lemma at_index_colors (i : Z) :
  (0 <= i < 5)%Z -> In (at_index colors i) colors.
Proof.
  intros Hi.
  assert (H : i = 0%Z \/ i = 1%Z \/ i = 2%Z \/ i = 3%Z \/ i = 4%Z) by lia.
  destruct H as [-> | [-> | [-> | [-> | ->]]]]; cbn; tauto.
Qed.

Lemma names_NoDup : NoDup names.
Proof.
  unfold names.
  repeat (constructor; [cbn; intuition discriminate |]).
  constructor.
Qed.

(** *** The bracket match *)

Lemma includes_cons (c : ascii) (s sub : string) :
  includes (String c s) sub = String.prefix sub (String c s) || includes s sub.
Proof. cbn [includes]. now destruct (String.prefix sub (String c s)). Qed.

Lemma prefix_char (c d : ascii) (s : string) :
  String.prefix (String c EmptyString) (String d s) = Ascii.eqb d c.
Proof.
  cbn. destruct (ascii_dec c d) as [-> | Hne].
  - rewrite Ascii.eqb_refl. now destruct s.
  - symmetry. apply Ascii.eqb_neq. congruence.
Qed.

(** A text holds a character iff the character splits it. *)
Lemma includes_char (c : ascii) (s : string) :
  includes s (String c EmptyString) = true
  <-> exists pre post, s = (pre ++ String c post)%string.
Proof.
  induction s as [| d s IH].
  - cbn. split; [discriminate |].
    intros (pre & post & H). destruct pre; discriminate.
  - rewrite includes_cons, prefix_char, orb_true_iff, IH. split.
    + intros [Heq | (pre & post & ->)].
      * apply Ascii.eqb_eq in Heq as ->. now exists EmptyString, s.
      * now exists (String d pre), post.
    + intros (pre & post & H). destruct pre as [| a pre]; cbn in H.
      * injection H as -> _. left. apply Ascii.eqb_refl.
      * injection H as _ ->. right. now exists pre, post.
Qed.

Lemma includes_char_false (c : ascii) (s : string) :
  includes s (String c EmptyString) = false
  <-> ~ exists pre post, s = (pre ++ String c post)%string.
Proof.
  rewrite <- includes_char.
  destruct (includes s (String c EmptyString)); split; intros H.
  - discriminate.
  - now destruct H.
  - discriminate.
  - reflexivity.
Qed.

Lemma append_assoc (a b c : string) :
  ((a ++ b) ++ c = a ++ (b ++ c))%string.
Proof. induction a as [| x a IH]; cbn; [reflexivity | now rewrite IH]. Qed.

Lemma afterFirstOpen_some (s rest : string) :
  afterFirstOpen s = Some rest ->
  exists pre,
    s = (pre ++ String openBracket rest)%string
    /\ includes pre (String openBracket EmptyString) = false.
Proof.
  revert rest. induction s as [| c s IH]; intros rest H; [discriminate |].
  cbn [afterFirstOpen] in H.
  destruct (Ascii.eqb c openBracket) eqn:Hc.
  - apply Ascii.eqb_eq in Hc as ->. injection H as ->.
    now exists EmptyString.
  - destruct (IH rest H) as (pre & -> & Hpre).
    exists (String c pre). split; [reflexivity |].
    rewrite includes_cons, prefix_char, Hc. exact Hpre.
Qed.

Lemma afterFirstOpen_none (s : string) :
  afterFirstOpen s = None ->
  includes s (String openBracket EmptyString) = false.
Proof.
  induction s as [| c s IH]; intros H; [reflexivity |].
  cbn [afterFirstOpen] in H.
  destruct (Ascii.eqb c openBracket) eqn:Hc; [discriminate |].
  rewrite includes_cons, prefix_char, Hc. now apply IH.
Qed.

Lemma throughLastClose_none (s : string) :
  throughLastClose s = None
  <-> includes s (String closeBracket EmptyString) = false.
Proof.
  induction s as [| c s IH]; [cbn; tauto |].
  cbn [throughLastClose]. rewrite includes_cons, prefix_char.
  destruct (throughLastClose s) as [m |].
  - split; [discriminate |]. intros H. apply orb_false_iff in H as [_ H].
    apply IH in H. discriminate.
  - assert (Hs : includes s (String closeBracket EmptyString) = false)
      by now apply IH.
    rewrite Hs, orb_false_r.
    destruct (Ascii.eqb c closeBracket); split; intros H;
      try discriminate; reflexivity.
Qed.

Lemma throughLastClose_some (s m : string) :
  throughLastClose s = Some m ->
  exists inner post,
    m = (inner ++ String closeBracket EmptyString)%string
    /\ s = (m ++ post)%string
    /\ includes post (String closeBracket EmptyString) = false.
Proof.
  revert m. induction s as [| c s IH]; intros m H; [discriminate |].
  cbn [throughLastClose] in H.
  destruct (throughLastClose s) as [m' |] eqn:Hs.
  - injection H as <-.
    destruct (IH m' eq_refl) as (inner & post & -> & Hsplit & Hpost).
    exists (String c inner), post. cbn. rewrite <- Hsplit. auto.
  - destruct (Ascii.eqb c closeBracket) eqn:Hc; [| discriminate].
    injection H as <-. apply Ascii.eqb_eq in Hc as ->.
    exists EmptyString, s. repeat split.
    now apply throughLastClose_none.
Qed.

(** *** Removing the code fences *)

Lemma prefix_nil (s : string) : String.prefix EmptyString s = true.
Proof. now destruct s. Qed.

Lemma prefix_cons (a b : ascii) (p s : string) :
  String.prefix (String a p) (String b s)
  = if ascii_dec a b then String.prefix p s else false.
Proof. reflexivity. Qed.

Lemma prefix_cons_true (a b : ascii) (p s : string) :
  String.prefix (String a p) (String b s) = true
  <-> a = b /\ String.prefix p s = true.
Proof.
  rewrite prefix_cons. destruct (ascii_dec a b); split.
  - auto.
  - now intros [_ H].
  - discriminate.
  - now intros [H _].
Qed.

Lemma removeAll_fence_step (c : ascii) (s : string) :
  removeAll_from fence 0 (String c s)
  = if String.prefix fence (String c s) then removeAll_from fence 2 s
    else String c (removeAll_from fence 0 s).
Proof. reflexivity. Qed.

(** What is left starts with a backtick only if the text did. *)
Lemma removeAll_fence_head1 (s : string) :
  String.prefix "`" (removeAll_from fence 0 s) = true ->
  String.prefix "`" s = true.
Proof.
  destruct s as [| c s]; [discriminate |].
  rewrite removeAll_fence_step.
  destruct (String.prefix fence (String c s)) eqn:Hp.
  - intros _. apply prefix_cons_true in Hp as [<- _].
    apply prefix_cons_true. split; [reflexivity | apply prefix_nil].
  - intros H. apply prefix_cons_true in H as [<- _].
    apply prefix_cons_true. split; [reflexivity | apply prefix_nil].
Qed.

Lemma removeAll_fence_head2 (s : string) :
  String.prefix "``" (removeAll_from fence 0 s) = true ->
  String.prefix "``" s = true.
Proof.
  destruct s as [| c s]; [discriminate |].
  rewrite removeAll_fence_step.
  destruct (String.prefix fence (String c s)) eqn:Hp.
  - intros _. unfold fence in Hp.
    apply prefix_cons_true in Hp as [<- Hp].
    destruct s as [| d s]; [discriminate |].
    apply prefix_cons_true in Hp as [<- _].
    apply prefix_cons_true. split; [reflexivity |].
    apply prefix_cons_true. split; [reflexivity | apply prefix_nil].
  - intros H. apply prefix_cons_true in H as [<- H].
    apply removeAll_fence_head1 in H.
    apply prefix_cons_true. split; [reflexivity | exact H].
Qed.

Lemma removeAll_fence_clean (skip : nat) (s : string) :
  includes (removeAll_from fence skip s) fence = false.
Proof.
  revert skip. induction s as [| c s IH]; intros skip.
  - now destruct skip.
  - destruct skip as [| k]; [| apply IH].
    rewrite removeAll_fence_step.
    destruct (String.prefix fence (String c s)) eqn:Hp; [apply IH |].
    rewrite includes_cons, IH, orb_false_r.
    destruct (String.prefix fence (String c (removeAll_from fence 0 s)))
      eqn:Hq; [| reflexivity].
    unfold fence in Hq. apply prefix_cons_true in Hq as [<- Hq].
    apply removeAll_fence_head2 in Hq.
    assert (Hp' : String.prefix fence (String "`" s) = true).
    { apply prefix_cons_true. now split. }
    congruence.
Qed.

End GeminiFacts.

Import GeminiService GeminiFacts.

Example jsonMatch_reply :
  jsonMatch "Aqui: ```json [ {} ] ``` e [mais] texto"
  = Some "[ {} ] ``` e [mais]"%string.
Proof. reflexivity. Qed.

Example cleanJson_reply :
  cleanJson "[```json {} ```]" = "[ {} ]"%string.
Proof. reflexivity. Qed.

(** X14.  A mock leaderboard has three entries, ranked 1, 2, 3.  The
    leader has between 30 and 79 visits, the second between one and ten
    fewer, the third half the leader's (rounded down), so the visits
    fall strictly with the rank.  The three names are different names of
    the fixed list, and every avatar colour is one of the fixed
    palette. *)
Theorem mock_leaderboard_is_ranked (shuffled : list string)
  (rVisits rColor1 rDrop rColor2 rColor3 : R) :
  Permutation names shuffled ->
  unitDraw rVisits -> unitDraw rColor1 -> unitDraw rDrop ->
  unitDraw rColor2 -> unitDraw rColor3 ->
  let board :=
    generateMockLeaderboard shuffled rVisits rColor1 rDrop rColor2 rColor3 in
  map LeaderboardEntry.rank board = [1; 2; 3]%Z
  /\ (exists v1 v2 v3,
        map LeaderboardEntry.visits board = [v1; v2; v3]
        /\ (30 <= v1 <= 79)%Z
        /\ (v1 - 10 <= v2 <= v1 - 1)%Z
        /\ v3 = (v1 / 2)%Z
        /\ (v3 < v2 < v1)%Z)
  /\ NoDup (map LeaderboardEntry.name board)
  /\ Forall (fun n => In n names) (map LeaderboardEntry.name board)
  /\ Forall (fun e => In (LeaderboardEntry.avatarColor e) colors) board.
Proof.
  intros Hperm Hv Hc1 Hd Hc2 Hc3 board. subst board.
  unfold generateMockLeaderboard.
  pose proof (floor_draw rVisits 50 Hv ltac:(lia)) as Hfv.
  pose proof (floor_draw rDrop 10 Hd ltac:(lia)) as Hfd.
  change (IZR (Z.of_nat (List.length colors))) with (IZR 5).
  pose proof (floor_draw rColor1 5 Hc1 ltac:(lia)) as Hf1.
  pose proof (floor_draw rColor2 5 Hc2 ltac:(lia)) as Hf2.
  pose proof (floor_draw rColor3 5 Hc3 ltac:(lia)) as Hf3.
  set (v := floor (rVisits * 50)) in *.
  set (d := floor (rDrop * 10)) in *.
  cbn [map LeaderboardEntry.rank LeaderboardEntry.visits
       LeaderboardEntry.name LeaderboardEntry.avatarColor].
  assert (Hlen : List.length shuffled = 7%nat).
  { now rewrite <- (Permutation_length Hperm). }
  destruct shuffled as [| n1 [| n2 [| n3 [| n4 [| n5 [| n6 [| n7 [| ? ?]]]]]]]];
    try discriminate Hlen.
  pose proof (Permutation_NoDup Hperm names_NoDup) as Hnd.
  split; [reflexivity |]. split; [| split; [| split]].
  - exists (v + 30)%Z, (v + 30 - d - 1)%Z, ((v + 30) / 2)%Z.
    rewrite floor_half.
    split; [reflexivity |]. repeat split; try lia.
    + apply Z.div_lt_upper_bound; lia.
  - change (NoDup [n1; n2; n3]).
    inversion Hnd as [| ? ? Hn1 Hnd1]; subst.
    inversion Hnd1 as [| ? ? Hn2 Hnd2]; subst.
    inversion Hnd2 as [| ? ? Hn3 _]; subst.
    repeat constructor; cbn in *; tauto.
  - change (Forall (fun n => In n names) [n1; n2; n3]).
    assert (Hin : forall n, In n [n1; n2; n3; n4; n5; n6; n7] -> In n names).
    { intros n. apply Permutation_in. now apply Permutation_sym. }
    apply Forall_cons; [apply Hin; cbn; tauto |].
    apply Forall_cons; [apply Hin; cbn; tauto |].
    apply Forall_cons; [apply Hin; cbn; tauto |].
    apply Forall_nil.
  - apply Forall_cons; [now apply at_index_colors |].
    apply Forall_cons; [now apply at_index_colors |].
    apply Forall_cons; [now apply at_index_colors |].
    apply Forall_nil.
Qed.

Lemma mock_leaderboard_is_ranked_witness :
  let board := generateMockLeaderboard names 0 0 0 0 0 in
  map LeaderboardEntry.rank board = [1; 2; 3]%Z
  /\ NoDup (map LeaderboardEntry.name board).
Proof.
  intros board.
  assert (H0 : unitDraw 0) by (unfold unitDraw; lra).
  destruct (mock_leaderboard_is_ranked names 0 0 0 0 0
              (Permutation_refl names) H0 H0 H0 H0 H0)
    as (Hrank & _ & Hnames & _).
  split; assumption.
Defined.

(** X15.  The bracket match of a reply is the stretch from its first
    ["["] to its last ["]"]: nothing before it holds a ["["], nothing
    after it holds a ["]"].  There is no match exactly when the reply
    has no ["["] followed, anywhere later, by a ["]"]. *)
Theorem jsonMatch_is_outermost_brackets (text : string) :
  (forall m, jsonMatch text = Some m ->
     exists pre inner post,
       text = (pre ++ m ++ post)%string
       /\ m = (String openBracket inner
               ++ String closeBracket EmptyString)%string
       /\ includes pre (String openBracket EmptyString) = false
       /\ includes post (String closeBracket EmptyString) = false)
  /\ (jsonMatch text = None <->
      ~ exists pre mid post,
          text = (pre ++ String openBracket mid
                  ++ String closeBracket post)%string).
Proof.
  unfold jsonMatch. split.
  - intros m H.
    destruct (afterFirstOpen text) as [rest |] eqn:Hopen; [| discriminate].
    destruct (throughLastClose rest) as [body |] eqn:Hclose; [| discriminate].
    injection H as <-.
    destruct (afterFirstOpen_some text rest Hopen) as (pre & -> & Hpre).
    destruct (throughLastClose_some rest body Hclose)
      as (inner & post & -> & -> & Hpost).
    exists pre, inner, post. repeat split; assumption.
  - destruct (afterFirstOpen text) as [rest |] eqn:Hopen.
    + destruct (afterFirstOpen_some text rest Hopen) as (pre & -> & Hpre).
      destruct (throughLastClose rest) as [body |] eqn:Hclose.
      * split; [discriminate |]. intros H. exfalso. apply H.
        destruct (throughLastClose_some rest body Hclose)
          as (inner & post & -> & -> & _).
        exists pre, inner, post. now rewrite append_assoc.
      * split; [intros _ | reflexivity].
        intros (pre' & mid & post & Hsplit).
        apply throughLastClose_none in Hclose.
        apply includes_char_false in Hclose. apply Hclose.
        clear Hclose Hopen.
        revert pre' Hsplit Hpre.
        induction pre as [| c pre IH]; intros pre' Hsplit Hpre.
        -- destruct pre' as [| c' pre']; cbn in Hsplit.
           ++ injection Hsplit as ->. now exists mid, post.
           ++ injection Hsplit as _ ->.
              exists (pre' ++ String openBracket mid)%string, post.
              now rewrite append_assoc.
        -- rewrite includes_cons, prefix_char in Hpre.
           apply orb_false_iff in Hpre as [Hc Hpre].
           destruct pre' as [| c' pre']; cbn in Hsplit.
           ++ injection Hsplit as -> _. now rewrite Ascii.eqb_refl in Hc.
           ++ injection Hsplit as _ Hsplit. now apply (IH pre').
    + split; [intros _ | reflexivity].
      intros (pre & mid & post & ->).
      apply afterFirstOpen_none in Hopen.
      apply includes_char_false in Hopen. apply Hopen.
      now exists pre, (mid ++ String closeBracket post)%string.
Qed.

Lemma jsonMatch_is_outermost_brackets_witness :
  exists pre inner post,
    "Aqui: ```json [ {} ] ``` e [mais] texto"%string
    = (pre ++ "[ {} ] ``` e [mais]" ++ post)%string
    /\ "[ {} ] ``` e [mais]"%string
       = (String openBracket inner
          ++ String closeBracket EmptyString)%string
    /\ includes pre (String openBracket EmptyString) = false
    /\ includes post (String closeBracket EmptyString) = false.
Proof.
  apply (proj1 (jsonMatch_is_outermost_brackets
                  "Aqui: ```json [ {} ] ``` e [mais] texto"%string)).
  reflexivity.
Defined.

(** X16.  Whatever the match, the text handed to [JSON.parse] holds no
    code fence (three backticks in a row), and it still starts with the
    ["["] of the match. *)
Theorem cleanJson_has_no_fence :
  (forall m, includes (cleanJson m) fence = false)
  /\ (forall text m, jsonMatch text = Some m ->
        exists rest, cleanJson m = String openBracket rest).
Proof.
  split.
  - intros m. apply removeAll_fence_clean.
  - intros text m H. unfold jsonMatch in H.
    destruct (afterFirstOpen text) as [rest |]; [| discriminate].
    destruct (throughLastClose rest) as [body |]; [| discriminate].
    injection H as <-. eexists. reflexivity.
Qed.

Lemma cleanJson_has_no_fence_witness :
  exists rest,
    cleanJson "[ {} ] ``` e [mais]"%string = String openBracket rest.
Proof.
  apply (proj2 cleanJson_has_no_fence
           "Aqui: ```json [ {} ] ``` e [mais] texto"%string).
  reflexivity.
Defined.

(** ** The application shell *)

Module AppFacts.
Import App.

Section WithResponse.

Variable GeminiResponseData : Type.
Variable trim : string -> string.

Lemma handleSearch_state (s : App.State GeminiResponseData) :
  fst (handleSearch trim s) = s
  \/ (status (fst (handleSearch trim s)) = LOADING
      /\ data (fst (handleSearch trim s)) = None
      /\ errorMsg (fst (handleSearch trim s)) = None).
Proof.
  unfold handleSearch.
  destruct (isEmpty (trim (query s)) && _); [now left | right].
  repeat split.
Qed.

(** What the application shows is backed by what it holds. *)
Lemma shown_is_held_step (e : App.Event GeminiResponseData)
  (s : App.State GeminiResponseData) :
  (status s = SUCCESS -> data s <> None) ->
  (status s = ERROR -> errorMsg s <> None) ->
  (status (step trim e s) = SUCCESS -> data (step trim e s) <> None)
  /\ (status (step trim e s) = ERROR -> errorMsg (step trim e s) <> None).
Proof.
  intros Hok Herr.
  destruct e as [q | | result | | geo | coords | | denied | coords];
    cbn [step]; try (split; cbn; auto; discriminate).
  - destruct (handleSearch_state s) as [-> | (Hst & _ & _)]; [now split |].
    rewrite Hst. split; discriminate.
  - unfold handleGeolocation. destruct (negb geo); cbn.
    + split; [exact Hok | discriminate].
    + split; discriminate.
Qed.

End WithResponse.

End AppFacts.

Import AppFacts.

(** X17.  Whatever the order in which clicks and callbacks arrive, the
    application is in the SUCCESS state only while it holds a response,
    and in the ERROR state only while it holds an error message. *)
Theorem app_shows_what_it_holds (GeminiResponseData : Type)
  (trim : string -> string) (s : App.State GeminiResponseData) :
  App.reachable trim s ->
  (App.status s = App.SUCCESS -> App.data s <> None)
  /\ (App.status s = App.ERROR -> App.errorMsg s <> None).
Proof.
  induction 1 as [| s e _ [Hok Herr]].
  - split; discriminate.
  - now apply shown_is_held_step.
Qed.

Lemma app_shows_what_it_holds_witness :
  let s :=
    App.step (fun q => q) (App.RoutesArrived "resposta"%string)
      (App.step (fun q => q) App.Submit
         (App.step (fun q => q) (App.ChangeQuery "Ibirapuera"%string)
            App.initial)) in
  App.status s = App.SUCCESS /\ App.data s <> None.
Proof.
  intros s. split; [reflexivity |].
  apply (app_shows_what_it_holds string (fun q => q) s).
  - repeat apply App.reachable_step. apply App.reachable_initial.
  - reflexivity.
Defined.

(** X18.  The route provider is never asked about an empty location:
    every request carries a non-empty text (the query, or "minha
    localização atual" when the query is empty) and the coordinates the
    application holds once the request is sent.  A search submitted with
    a blank query and no coordinates sends nothing and changes nothing. *)
Theorem requests_name_a_location (GeminiResponseData : Type)
  (trim : string -> string) (s : App.State GeminiResponseData) :
  (forall e r, App.requestOf trim e s = Some r ->
     App.searchLocation r <> ""%string
     /\ App.location r = App.coordinates (App.step trim e s))
  /\ (trim (App.query s) = ""%string -> App.coordinates s = None ->
      App.requestOf trim App.Submit s = None
      /\ App.step trim App.Submit s = s).
Proof.
  split.
  - intros e r Hr.
    destruct e as [q | | result | | geo | coords | | denied | coords];
      try discriminate Hr; cbn [App.requestOf App.step] in *.
    + unfold App.handleSearch in *.
      destruct (App.isEmpty (trim (App.query s)) && _); [discriminate |].
      cbn [fst snd] in *. injection Hr as <-.
      cbn [App.searchLocation App.location App.coordinates]. split; auto.
      unfold App.isEmpty.
      destruct (String.eqb_spec (App.query s) ""); [discriminate | assumption].
    + injection Hr as <-. split; [discriminate | reflexivity].
  - intros Hblank Hnone. cbn [App.requestOf App.step].
    unfold App.handleSearch, App.isEmpty. rewrite Hblank, Hnone.
    split; reflexivity.
Qed.

Lemma requests_name_a_location_witness :
  let s : App.State string :=
    App.mkState ""%string App.IDLE None (Some (mkCoordinates 0 0)) None in
  (exists r, App.requestOf (fun q => q) App.Submit s = Some r
             /\ App.searchLocation r <> ""%string)
  /\ App.step (fun q => q) App.Submit (@App.initial string) = App.initial.
Proof.
  intros s. split.
  - eexists. split; [reflexivity |].
    apply (proj1 (requests_name_a_location string (fun q => q) s)
             App.Submit).
    reflexivity.
  - apply (proj2 (requests_name_a_location string (fun q => q)
                    App.initial)); reflexivity.
Defined.
